(** * Privacy utilities of src/main.py: [mask_pii] and [apply_differential_privacy]

    [mask_pii] is modelled over a small Python object heap: a record is a
    reference to a dict object, [data.copy()] allocates a new dict holding
    the same value references (a shallow copy), and item assignment writes
    the dict object in place.  Exceptions that Python raises are the [inl]
    branch of a state and exception monad.  Python [str] is modelled as
    [String.string] (characters as [ascii]).

    [apply_differential_privacy] is modelled over the reals, with the call
    to [np.random.laplace] an explicit sampling request answered by a
    stream of samples. *)

From Stdlib Require Import ZArith Ascii String Reals Lra.
From stdpp Require Import base gmap strings list fin_maps.

Open Scope Z_scope.

(** ** Python values and the object heap *)

Definition loc := nat.

Inductive pyval :=
  | VStr (s : string)
  | VInt (z : Z)
  | VNone
  | VRef (l : loc).   (* a mutable object (dict or list) living in the heap *)

(** A dict is kept as its insertion-ordered list of entries; the keys of
    the records handled here are field names. *)
Inductive obj :=
  | ODict (es : list (string * pyval))
  | OList (xs : list pyval).

Abbreviation heap := (gmap loc obj).

Inductive exn :=
  | TypeError
  | AttributeError
  | KeyError
  | DanglingRef.  (* no Python counterpart: a reference always denotes a live object *)

(** ** State and exception monad *)

Definition M (A : Type) : Type := heap -> heap * (exn + A).

Global Instance M_ret : MRet M := fun A a h => (h, inr a).
Global Instance M_bind : MBind M := fun A B k c h =>
  match c h with
  | (h1, inl e) => (h1, inl e)
  | (h1, inr a) => k a h1
  end.

Definition throw {A} (e : exn) : M A := fun h => (h, inl e).

Definition load (l : loc) : M obj := fun h =>
  match h !! l with
  | Some o => (h, inr o)
  | None => (h, inl DanglingRef)
  end.

Definition store (l : loc) (o : obj) : M unit := fun h => (<[l := o]> h, inr tt).

Definition alloc (o : obj) : M loc := fun h =>
  let l := fresh (dom h) in (<[l := o]> h, inr l).

(** ** Python built-ins used by [mask_pii] *)

(** Normalisation of a slice bound against a sequence of length [n]:
    negative bounds count from the end, and bounds are clipped to [0, n]. *)
Definition slice_bound (n : nat) (i : Z) : nat :=
  if i <? 0 then Z.to_nat (Z.max 0 (i + Z.of_nat n)) else Z.to_nat (Z.min i (Z.of_nat n)).

Definition slice_range (n : nat) (start stop : option Z) : nat * nat :=
  let a := match start with Some i => slice_bound n i | None => 0%nat end in
  let b := match stop with Some j => slice_bound n j | None => n end in
  (a, b).

(** [s[start:stop]] on a str. *)
Definition str_slice (s : string) (start stop : option Z) : string :=
  let '(a, b) := slice_range (String.length s) start stop in
  String.substring a (b - a) s.

(** [xs[start:stop]] on a list. *)
Definition list_slice {A} (xs : list A) (start stop : option Z) : list A :=
  let '(a, b) := slice_range (length xs) start stop in
  take (b - a) (drop a xs).

(** [s.split(sep)] for a one-character separator: the pieces between the
    occurrences of [sep], so there is one piece more than occurrences. *)
Fixpoint str_split (sep : ascii) (s : string) : list string :=
  match s with
  | EmptyString => [EmptyString]
  | String c r =>
      let parts := str_split sep r in
      if Ascii.eqb c sep then EmptyString :: parts
      else match parts with
           | p :: ps => String c p :: ps
           | [] => [String c EmptyString]
           end
  end.

(** [len(v)] *)
Definition py_len (v : pyval) : M nat :=
  match v with
  | VStr s => mret (String.length s)
  | VRef l =>
      o ← load l;
      match o with
      | ODict es => mret (length es)
      | OList xs => mret (length xs)
      end
  | VInt _ | VNone => throw TypeError
  end.

(** [v[start:stop]]; slicing a list allocates a new list, slicing a dict
    raises (the slice is not a valid key). *)
Definition py_slice (v : pyval) (start stop : option Z) : M pyval :=
  match v with
  | VStr s => mret (VStr (str_slice s start stop))
  | VRef l =>
      o ← load l;
      match o with
      | OList xs => l' ← alloc (OList (list_slice xs start stop)); mret (VRef l')
      | ODict _ => throw TypeError
      end
  | VInt _ | VNone => throw TypeError
  end.

(** [s + v] where the left operand [s] is a str: only str + str is defined. *)
Definition py_add_str (s : string) (v : pyval) : M pyval :=
  match v with
  | VStr t => mret (VStr (s +:+ t))
  | _ => throw TypeError
  end.

(** [v.split(sep)]: only str has a [split] method here. *)
Definition py_split (v : pyval) (sep : ascii) : M (list string) :=
  match v with
  | VStr s => mret (str_split sep s)
  | _ => throw AttributeError
  end.

Definition load_dict (d : pyval) : M (list (string * pyval)) :=
  match d with
  | VRef l =>
      o ← load l;
      match o with
      | ODict es => mret es
      | OList _ => throw TypeError
      end
  | _ => throw TypeError
  end.

Fixpoint entry_lookup (k : string) (es : list (string * pyval)) : option pyval :=
  match es with
  | [] => None
  | (k', v) :: es' => if String.eqb k k' then Some v else entry_lookup k es'
  end.

(** Assignment [d[k] = v]: an existing key keeps its position, a new key
    is appended. *)
Fixpoint entry_set (k : string) (v : pyval) (es : list (string * pyval))
    : list (string * pyval) :=
  match es with
  | [] => [(k, v)]
  | (k', v') :: es' =>
      if String.eqb k k' then (k', v) :: es' else (k', v') :: entry_set k v es'
  end.

(** [k in d] *)
Definition dict_contains (d : pyval) (k : string) : M bool :=
  es ← load_dict d; mret (bool_decide (is_Some (entry_lookup k es))).

(** [d[k]] *)
Definition dict_getitem (d : pyval) (k : string) : M pyval :=
  es ← load_dict d;
  match entry_lookup k es with
  | Some v => mret v
  | None => throw KeyError
  end.

(** [d[k] = v] *)
Definition dict_setitem (d : pyval) (k : string) (v : pyval) : M unit :=
  es ← load_dict d;
  match d with
  | VRef l => store l (ODict (entry_set k v es))
  | _ => throw TypeError
  end.

(** [d.copy()]: a new dict object with the same entries, the values being
    shared with [d] (a shallow copy).  [mask_pii] is annotated [Dict]; a
    non-dict argument is not modelled beyond raising. *)
Definition dict_copy (d : pyval) : M pyval :=
  es ← load_dict d; l ← alloc (ODict es); mret (VRef l).

(** ** [mask_pii] (src/main.py, lines 206-224) *)

Definition mask_name (masked : pyval) : M unit :=
  has ← dict_contains masked "name";
  if (has : bool) then
    n ← dict_getitem masked "name";
    len_n ← py_len n;
    v ← (if (2 <? len_n)%nat then
           n' ← dict_getitem masked "name";
           tl ← py_slice n' (Some (-2)) None;
           py_add_str "***" tl
         else mret (VStr "***"));
    dict_setitem masked "name" v
  else mret tt.

Definition mask_email (masked : pyval) : M unit :=
  has ← dict_contains masked "email";
  if (has : bool) then
    e ← dict_getitem masked "email";
    parts ← py_split e "@"%char;
    match parts with
    | [p0; p1] =>
        dict_setitem masked "email" (VStr (str_slice p0 None (Some 2) +:+ "***@" +:+ p1))
    | _ => mret tt
    end
  else mret tt.

Definition mask_phone (masked : pyval) : M unit :=
  has ← dict_contains masked "phone";
  if (has : bool) then
    p ← dict_getitem masked "phone";
    tl ← py_slice p (Some (-4)) None;
    v ← py_add_str "***-***-" tl;
    dict_setitem masked "phone" v
  else mret tt.

Definition mask_pii (data : pyval) : M pyval :=
  masked ← dict_copy data;
  mask_name masked;;
  mask_email masked;;
  mask_phone masked;;
  mret masked.

(** ** [apply_differential_privacy] (src/main.py, lines 226-236)

    Python floats are modelled as reals.  The draw [np.random.laplace(loc,
    scale)] is a request [SLaplace loc scale k] whose answer, the sample,
    is passed to the continuation [k]; [SRaise e] is a raised exception. *)

(** The Python exceptions the functions below raise. *)
Inductive api_error :=
  | ValueError
  | ZeroDivisionError
  | HTTPException (status_code : Z) (detail : string).

Inductive Samp (A : Type) : Type :=
  | SRet (a : A)
  | SLaplace (loc scale : R) (k : R -> Samp A)
  | SRaise (e : api_error).

Arguments SRet {A} a.
Arguments SLaplace {A} loc scale k.
Arguments SRaise {A} e.

(** Run a sampling computation against a list of samples; the result
    comes with the trace of the requested [(loc, scale)] pairs.  [None]
    when the samples run out or an exception is raised. *)
Fixpoint run_samp {A} (c : Samp A) (samples : list R) : option (A * list (R * R)) :=
  match c with
  | SRet a => Some (a, [])
  | SRaise _ => None
  | SLaplace l b k =>
      match samples with
      | [] => None
      | n :: ns =>
          match run_samp (k n) ns with
          | Some (a, tr) => Some (a, (l, b) :: tr)
          | None => None
          end
      end
  end.

(** [DIFFERENTIAL_PRIVACY_EPSILON], with its default "0.1" (the variable
    read from the environment being unset). *)
Definition DIFFERENTIAL_PRIVACY_EPSILON : R := (1 / 10)%R.

(** Python's [max(a, b)]: [b] only when it is strictly greater. *)
Definition py_max (a b : R) : R := if Rlt_dec a b then b else a.

(** [0.1 / epsilon] raises ZeroDivisionError at [epsilon = 0], and
    [np.random.laplace] raises ValueError on a negative scale. *)
Definition apply_differential_privacy (value epsilon : R) : Samp R :=
  if Req_EM_T epsilon 0 then SRaise ZeroDivisionError
  else
    let scale := (0.1 / epsilon)%R in
    if Rlt_dec scale 0 then SRaise ValueError
    else
      SLaplace 0%R scale (fun noise =>
        let result := (value + noise)%R in
        if Rlt_dec 0 value then SRet (py_max 0 result) else SRet result).

(** The value returned when the draw yields [noise]. *)
Definition dp_output (value epsilon noise : R) : option R :=
  fst <$> run_samp (apply_differential_privacy value epsilon) [noise].

(** ** Pure reading of the three masking steps on a str field *)

Definition name_mask (s : string) : string :=
  if (2 <? String.length s)%nat then "***" +:+ str_slice s (Some (-2)) None else "***".

Definition email_mask (s : string) : string :=
  match str_split "@"%char s with
  | [p0; p1] => str_slice p0 None (Some 2) +:+ "***@" +:+ p1
  | _ => s
  end.

Definition phone_mask (s : string) : string := "***-***-" +:+ str_slice s (Some (-4)) None.

(** What a successful masking step may do to the entries of the copy: an
    absent key is left alone, a present key is reassigned in place, and a
    str value is replaced by its mask. *)
Definition field_step (k : string) (f : string -> string)
    (es es' : list (string * pyval)) : Prop :=
  (entry_lookup k es = None /\ es' = es) \/
  (exists v, is_Some (entry_lookup k es) /\ es' = entry_set k v es /\
     forall s, entry_lookup k es = Some (VStr s) -> v = VStr (f s)).

(** ** Field types, results of a run, sample records *)

(** [v] is a str. *)
Definition is_str (v : pyval) : bool := match v with VStr _ => true | _ => false end.

(** The field [k] is absent or holds a str. *)
Definition field_str (es : list (string * pyval)) (k : string) : bool :=
  match entry_lookup k es with Some v => is_str v | None => true end.

(** The three PII fields are each absent or a str. *)
Definition pii_fields_str (es : list (string * pyval)) : bool :=
  field_str es "name" && field_str es "email" && field_str es "phone".

(** The entries of the dict a run returns. *)
Definition run_dict (res : heap * (exn + pyval)) : option (list (string * pyval)) :=
  match res with
  | (h, inr (VRef m)) => match h !! m with Some (ODict es) => Some es | _ => None end
  | _ => None
  end.

(** [result[k]] for the dict a run returns. *)
Definition run_field (res : heap * (exn + pyval)) (k : string) : option pyval :=
  match run_dict res with Some es => entry_lookup k es | None => None end.

(** A heap holding one record, at location 0. *)
Definition record_heap (es : list (string * pyval)) : heap := {[0%nat := ODict es]}.

(** [mask_pii] called on the record of [record_heap es]. *)
Definition mask_record (es : list (string * pyval)) : heap * (exn + pyval) :=
  mask_pii (VRef 0%nat) (record_heap es).

(** Number of occurrences of [c] in [s]. *)
Fixpoint char_count (c : ascii) (s : string) : nat :=
  match s with
  | EmptyString => 0
  | String c' r => (if Ascii.eqb c' c then 1 else 0) + char_count c r
  end.

(** A record whose [tags] field holds a list object. *)
Definition alias_heap : heap := {[0%nat := OList [VInt 1]; 1%nat := ODict [("tags", VRef 0%nat)]]}.

(** ** Analytics endpoints (src/main.py, lines 326-440)

    A customer row is the dict built by [get_customer_data]; only the
    fields the endpoints read are kept.  Money amounts are reals. *)

Record customer := mk_customer {
  c_region : string;
  c_income : R;
  c_age : Z;
  c_product_category : string;
  c_avg_order_value : R;
  c_purchase_frequency : R }.

(** A dict with str keys, as its insertion-ordered entries. *)
Fixpoint alookup {V} (k : string) (d : list (string * V)) : option V :=
  match d with
  | [] => None
  | (k', v) :: d' => if String.eqb k k' then Some v else alookup k d'
  end.

(** [d[k] = v]: an existing key keeps its position, a new key is appended. *)
Fixpoint aset {V} (k : string) (v : V) (d : list (string * V)) : list (string * V) :=
  match d with
  | [] => [(k, v)]
  | (k', v') :: d' => if String.eqb k k' then (k', v) :: d' else (k', v') :: aset k v d'
  end.

(** One iteration of the loops
      [if key not in d: d[key] = init]
      [d[key] = upd(d[key], customer)]
    that group the customers by a field. *)
Definition group_step {V} (key : customer -> string) (init : V) (upd : V -> customer -> V)
    (d : list (string * V)) (c : customer) : list (string * V) :=
  let k := key c in
  let d1 := match alookup k d with None => aset k init d | Some _ => d end in
  match alookup k d1 with
  | Some v => aset k (upd v c) d1
  | None => d1   (* unreachable: the key was just inserted *)
  end.

(** [regional_data] of [get_customer_analytics]: per region the pair
    (["count"], ["total_income"]); the loop body adds 1 to the count and
    the income to the total. *)
Definition regional_data (cs : list customer) : list (string * (nat * R)) :=
  fold_left (group_step c_region (0%nat, 0%R)
               (fun '(n, t) c => (S n, (t + c_income c)%R))) cs [].

(** [category_sales] of [get_trend_analytics]. *)
Definition category_sales (cs : list customer) : list (string * R) :=
  fold_left (group_step c_product_category 0%R
               (fun s c => (s + c_avg_order_value c * c_purchase_frequency c / 1000)%R)) cs [].

Definition age_groups_init : list (string * nat) :=
  [("18-30", 0%nat); ("31-40", 0%nat); ("41-50", 0%nat); ("50+", 0%nat)].

(** [age_groups[g] += 1] *)
Definition age_incr (g : string) (d : list (string * nat)) : list (string * nat) :=
  match alookup g d with
  | Some n => aset g (S n) d
  | None => d   (* unreachable: the four groups are present from the start *)
  end.

Definition age_step (d : list (string * nat)) (c : customer) : list (string * nat) :=
  let age := c_age c in
  if age <=? 30 then age_incr "18-30" d
  else if age <=? 40 then age_incr "31-40" d
  else if age <=? 50 then age_incr "41-50" d
  else age_incr "50+" d.

(** [age_groups] of [get_trend_analytics]. *)
Definition age_groups (cs : list customer) : list (string * nat) :=
  fold_left age_step cs age_groups_init.

(** [max(d, key=d.get)]: the first key of greatest value; [None] stands for
    the ValueError raised on an empty dict. *)
Definition py_max_key (d : list (string * R)) : option string :=
  match d with
  | [] => None
  | (k, v) :: rest =>
      Some (fst (fold_left (fun '(bk, bv) '(k', v') =>
                              if Rlt_dec bv v' then (k', v') else (bk, bv)) rest (k, v)))
  end.

(** Sequencing of sampling computations. *)
Fixpoint samp_bind {A B} (c : Samp A) (f : A -> Samp B) : Samp B :=
  match c with
  | SRet a => f a
  | SLaplace l b k => SLaplace l b (fun n => samp_bind (k n) f)
  | SRaise e => SRaise e
  end.

(** [for key, value in items: private[key] = apply_differential_privacy(value)] *)
Fixpoint privatize (items : list (string * R)) (acc : list (string * R))
    : Samp (list (string * R)) :=
  match items with
  | [] => SRet acc
  | (k, v) :: rest =>
      samp_bind (apply_differential_privacy v DIFFERENTIAL_PRIVACY_EPSILON)
        (fun pv => privatize rest (aset k pv acc))
  end.

(** Whatever the samples, a sampling computation raises no exception and
    every outcome has property [P]. *)
Inductive samp_all {A} (P : A -> Prop) : Samp A -> Prop :=
  | samp_all_ret a : P a -> samp_all P (SRet a)
  | samp_all_laplace l b k : (forall n, samp_all P (k n)) -> samp_all P (SLaplace l b k).

(** ** Audit log (src/main.py, lines 238-247 and 442-455) *)

Record audit_entry := mk_audit_entry {
  a_timestamp : string;
  a_user : string;
  a_action : string;
  a_resource : string;
  a_privacy_budget_used : R }.

(** [log_audit_entry]: the entry is appended to [audit_log]; [now] is the
    value of [datetime.now().isoformat()]. *)
Definition log_audit_entry (log : list audit_entry) (now user action resource : string)
    (privacy_budget_used : R) : list audit_entry :=
  log ++ [mk_audit_entry now user action resource privacy_budget_used].


(** [PRIVACY_BUDGET], with its default "1.0". *)
Definition PRIVACY_BUDGET : R := 1%R.

Record trend_result := mk_trend_result {
  category_performance : list (string * R);
  age_distribution : list (string * R);
  top_category : string;
  dominant_age_group : string }.

(** [get_trend_analytics] on the rows [cs]; the audit log is threaded
    through, the entry being logged before the response is built. *)
Definition get_trend_analytics (cs : list customer) (now : string) (log : list audit_entry)
    : Samp (list audit_entry * (api_error + trend_result)) :=
  let cat := category_sales cs in
  samp_bind (privatize cat []) (fun private_category_sales =>
  let ages := age_groups cs in
  samp_bind (privatize (map (fun '(g, n) => (g, INR n)) ages) []) (fun private_age_groups =>
  let log' := log_audit_entry log now "demo_user" "TREND_ANALYSIS" "CUSTOMER_DATA" 0.15 in
  SRet (log',
    match py_max_key private_category_sales, py_max_key private_age_groups with
    | Some top, Some dom =>
        inr (mk_trend_result private_category_sales private_age_groups top dom)
    | _, _ => inl ValueError
    end))).

Record user := mk_user { u_username : string; u_full_name : string; u_role : string }.

(** [get_audit_log] once the caller is authenticated as [current_user]. *)
Definition get_audit_log (current_user : user) (log : list audit_entry)
    : api_error + (list audit_entry * nat * R) :=
  if String.eqb (u_role current_user) "admin"
  then inr (list_slice log (Some (-50)) None, length log, PRIVACY_BUDGET)
  else inl (HTTPException 403 "Admin access required").

(** ** Authentication (src/main.py, lines 44-64 and 249-324)

    bcrypt and JWT are outside the repository: [hash] stands for
    [pwd_context.hash] (called once per user at start-up), [verify] for
    [pwd_context.verify], [encode] for [jwt.encode] and [decode] for
    [jwt.decode], which yields [None] where it raises JWTError (bad
    signature, expired token). *)

(** [users_db]: each user with its hashed password. *)
Definition users_db (hash : string -> string) : list (string * (user * string)) :=
  [("admin", (mk_user "admin" "System Administrator" "admin", hash "admin123"));
   ("analyst", (mk_user "analyst" "Data Analyst" "analyst", hash "analyst123"));
   ("viewer", (mk_user "viewer" "Data Viewer" "viewer", hash "viewer123"))].

Definition get_user (hash : string -> string) (username : string) : option user :=
  match alookup username (users_db hash) with
  | Some (u, _) => Some u
  | None => None
  end.

Definition verify_password (verify : string -> string -> bool) (plain hashed : string) : bool :=
  verify plain hashed.

Definition authenticate_user (verify : string -> string -> bool) (hash : string -> string)
    (username password : string) : option user :=
  match get_user hash username with
  | None => None
  | Some u =>
      match alookup username (users_db hash) with
      | Some (_, hashed) => if verify_password verify password hashed then Some u else None
      | None => None
      end
  end.

(** A JWT claim: a str or a time, in minutes. *)
Inductive claim := CStr (s : string) | CTime (minutes : Z).

Definition ACCESS_TOKEN_EXPIRE_MINUTES : Z := 30.

(** The claims [create_access_token] hands to [jwt.encode]; [now] is
    [datetime.utcnow()] and [expires_delta] a timedelta in minutes, false
    when [None] or zero. *)
Definition access_token_claims (data : list (string * claim)) (expires_delta : option Z) (now : Z)
    : list (string * claim) :=
  let expire := match expires_delta with
                | Some d => if d =? 0 then now + 15 else now + d
                | None => now + 15
                end in
  aset "exp" (CTime expire) data.

Definition create_access_token (encode : list (string * claim) -> string)
    (data : list (string * claim)) (expires_delta : option Z) (now : Z) : string :=
  encode (access_token_claims data expires_delta now).

Definition credentials_exception : api_error := HTTPException 401 "Could not validate credentials".

Definition get_current_user (decode : string -> option (list (string * string)))
    (hash : string -> string) (token : string) : api_error + user :=
  match decode token with
  | None => inl credentials_exception
  | Some payload =>
      match alookup "sub" payload with
      | None => inl credentials_exception
      | Some username =>
          match get_user hash username with
          | None => inl credentials_exception
          | Some u => inr u
          end
      end
  end.


(** The [/token] endpoint: the new audit log and the response. *)
Definition login_for_access_token (verify : string -> string -> bool) (hash : string -> string)
    (encode : list (string * claim) -> string) (utcnow : Z) (now : string)
    (username password : string) (log : list audit_entry)
    : list audit_entry * (api_error + (string * string)) :=
  match authenticate_user verify hash username password with
  | None => (log, inl (HTTPException 401 "Incorrect username or password"))
  | Some u =>
      let access_token := create_access_token encode [("sub", CStr (u_username u))]
                            (Some ACCESS_TOKEN_EXPIRE_MINUTES) utcnow in
      (log_audit_entry log now (u_username u) "LOGIN" "SYSTEM" 0, inr (access_token, "bearer"))
  end.

(** ** Frame property: the objects of a set [L] of live locations are left
    untouched, whatever the outcome (value or exception). *)

Definition frames {A} (L : gset loc) (c : M A) : Prop :=
  forall h, L ⊆ dom h -> forall l, l ∈ L -> (c h).1 !! l = h !! l.

(** ** Running a computation: equations of the monad and its primitives *)

Section Run.

Context {A B : Type}.

Lemma bind_inr (k : A -> M B) (c : M A) h h1 a :
  c h = (h1, inr a) -> (c ≫= k) h = k a h1.
Proof. intros E. unfold mbind, M_bind. by rewrite E. Qed.

Lemma bind_inl (k : A -> M B) (c : M A) h h1 e :
  c h = (h1, inl e) -> (c ≫= k) h = (h1, inl e).
Proof. intros E. unfold mbind, M_bind. by rewrite E. Qed.

Lemma bind_assoc_run {C} (c : M A) (k1 : A -> M B) (k2 : B -> M C) h :
  ((c ≫= k1) ≫= k2) h = (c ≫= (fun x => k1 x ≫= k2)) h.
Proof. unfold mbind, M_bind. by destruct (c h) as [? []]. Qed.

End Run.

(** Peel the first bind off a run [H : (c ≫= k) h = (h', inr r)]: the run
    of [c] must succeed, and [H] continues with the rest. *)
Ltac peel H E h1 a :=
  lazymatch type of H with
  | (mbind ?k ?c) ?h = (_, inr _) =>
      let e := fresh "e" in
      destruct (c h) as [h1 [e | a]] eqn:E;
      [rewrite (bind_inl k c _ _ _ E) in H; discriminate H
      | rewrite (bind_inr k c _ _ _ E) in H; cbv beta in H]
  end.

Section Primitives.

Variable h : heap.

Lemma load_dict_ref m es :
  h !! m = Some (ODict es) -> load_dict (VRef m) h = (h, inr es).
Proof. intros Hm. unfold load_dict, load, mbind, M_bind. by rewrite Hm. Qed.

Lemma load_dict_ok d h1 es :
  load_dict d h = (h1, inr es) -> h1 = h /\ exists m, d = VRef m /\ h !! m = Some (ODict es).
Proof.
  unfold load_dict, load, mbind, M_bind, throw, mret, M_ret.
  destruct d as [| | |m]; try discriminate.
  destruct (h !! m) as [[es'|xs]|] eqn:Hm; intros E; inversion E; subst; eauto.
Qed.

Lemma dict_contains_ref m es k :
  h !! m = Some (ODict es) ->
  dict_contains (VRef m) k h = (h, inr (bool_decide (is_Some (entry_lookup k es)))).
Proof. intros Hm. unfold dict_contains. by rewrite (bind_inr _ _ _ _ _ (load_dict_ref m es Hm)). Qed.

Lemma dict_getitem_ref m es k v :
  h !! m = Some (ODict es) -> entry_lookup k es = Some v ->
  dict_getitem (VRef m) k h = (h, inr v).
Proof.
  intros Hm Hk. unfold dict_getitem.
  rewrite (bind_inr _ _ _ _ _ (load_dict_ref m es Hm)). by rewrite Hk.
Qed.

Lemma dict_setitem_ref m es k v :
  h !! m = Some (ODict es) ->
  dict_setitem (VRef m) k v h = (<[m := ODict (entry_set k v es)]> h, inr tt).
Proof. intros Hm. unfold dict_setitem. by rewrite (bind_inr _ _ _ _ _ (load_dict_ref m es Hm)). Qed.

Lemma py_len_heap v h1 r : py_len v h = (h1, r) -> h1 = h.
Proof.
  unfold py_len, load, mbind, M_bind, throw, mret, M_ret.
  destruct v as [| | |l]; try (intros E; by inversion E).
  destruct (h !! l) as [[]|]; intros E; by inversion E.
Qed.

Lemma py_slice_str_ok v a b h1 t :
  py_slice v a b h = (h1, inr (VStr t)) -> h1 = h /\ exists s, v = VStr s /\ t = str_slice s a b.
Proof.
  unfold py_slice, load, alloc, mbind, M_bind, throw, mret, M_ret.
  destruct v as [s| | |l]; try discriminate.
  - intros E; inversion E; eauto.
  - destruct (h !! l) as [[]|]; discriminate.
Qed.

Lemma py_add_str_ok s v h1 w :
  py_add_str s v h = (h1, inr w) -> h1 = h /\ exists t, v = VStr t /\ w = VStr (s +:+ t).
Proof.
  unfold py_add_str, throw, mret, M_ret.
  destruct v as [t| | |]; intros E; inversion E; eauto.
Qed.

Lemma py_split_ok v sep h1 parts :
  py_split v sep h = (h1, inr parts) -> h1 = h /\ exists s, v = VStr s /\ parts = str_split sep s.
Proof. unfold py_split, throw, mret, M_ret. destruct v; intros E; inversion E; eauto. Qed.

End Primitives.

(** ** Entries of a dict *)

Lemma entry_set_id k v es : entry_lookup k es = Some v -> entry_set k v es = es.
Proof.
  induction es as [|[k' v'] es IH]; cbn; [discriminate|].
  destruct (String.eqb k k'); [by intros [= ->] | intros Hk; by rewrite IH].
Qed.

Lemma entry_lookup_set_eq k v es : is_Some (entry_lookup k es) -> entry_lookup k (entry_set k v es) = Some v.
Proof.
  induction es as [|[k' v'] es IH]; cbn; [by intros []|].
  destruct (String.eqb k k') eqn:Ek; cbn; rewrite Ek; auto.
Qed.

Lemma entry_lookup_set_ne k k' v es : k <> k' -> entry_lookup k (entry_set k' v es) = entry_lookup k es.
Proof.
  intros Hne. induction es as [|[k'' v'] es IH]; cbn.
  - apply String.eqb_neq in Hne. by rewrite Hne.
  - destruct (String.eqb k' k'') eqn:E'; cbn.
    + apply String.eqb_eq in E' as <-. apply String.eqb_neq in Hne. by rewrite Hne.
    + by rewrite IH.
Qed.

Lemma entry_set_keys k v es : is_Some (entry_lookup k es) -> (entry_set k v es).*1 = es.*1.
Proof.
  induction es as [|[k' v'] es IH]; cbn; [by intros []|].
  destruct (String.eqb k k'); cbn; [done|]. intros Hk. by rewrite IH.
Qed.

(** ** Each masking step, on success *)

Lemma mask_name_ok h0 m es h' u : h0 !! m = Some (ODict es) ->
  mask_name (VRef m) h0 = (h', inr u) ->
  exists es', field_step "name" name_mask es es' /\ h' = <[m := ODict es']> h0.
Proof.
  intros Hm H. unfold mask_name in H.
  rewrite (bind_inr _ _ _ _ _ (dict_contains_ref _ _ _ _ Hm)) in H. cbv beta in H.
  destruct (entry_lookup "name" es) as [v|] eqn:Hk.
  - rewrite bool_decide_eq_true_2 in H by done.
    rewrite (bind_inr _ _ _ _ _ (dict_getitem_ref _ _ _ _ _ Hm Hk)) in H. cbv beta in H.
    peel H Elen h1 nlen. apply py_len_heap in Elen as Eh; subst h1.
    peel H Ev h2 v'.
    assert (h2 = h0 /\ forall s, v = VStr s -> v' = VStr (name_mask s)) as [-> Hv'].
    { destruct (2 <? nlen)%nat eqn:Hlt.
      - rewrite (bind_inr _ _ _ _ _ (dict_getitem_ref _ _ _ _ _ Hm Hk)) in Ev. cbv beta in Ev.
        peel Ev Es h3 tl0.
        apply py_add_str_ok in Ev as [-> [t [-> ->]]].
        apply py_slice_str_ok in Es as [-> [s' [-> ->]]].
        split; [done|]. intros s Hs. injection Hs as ->.
        unfold py_len, mret, M_ret in Elen. injection Elen as <-.
        unfold name_mask. by rewrite Hlt.
      - unfold mret, M_ret in Ev. injection Ev as <- <-.
        split; [done|]. intros s ->.
        unfold py_len, mret, M_ret in Elen. injection Elen as <-.
        unfold name_mask. by rewrite Hlt. }
    rewrite (dict_setitem_ref _ _ _ _ _ Hm) in H. injection H as <- _.
    exists (entry_set "name" v' es). split; [|done].
    right. exists v'. split; [by eexists|]. split; [done|].
    intros s Hs. rewrite Hk in Hs. injection Hs as ->. by apply Hv'.
  - rewrite bool_decide_eq_false_2 in H by (intros [? ?]; discriminate).
    unfold mret, M_ret in H. injection H as <- _.
    exists es. split; [left; done|]. by rewrite insert_id.
Qed.

Lemma mask_email_ok h0 m es h' u : h0 !! m = Some (ODict es) ->
  mask_email (VRef m) h0 = (h', inr u) ->
  exists es', field_step "email" email_mask es es' /\ h' = <[m := ODict es']> h0.
Proof.
  intros Hm H. unfold mask_email in H.
  rewrite (bind_inr _ _ _ _ _ (dict_contains_ref _ _ _ _ Hm)) in H. cbv beta in H.
  destruct (entry_lookup "email" es) as [v|] eqn:Hk.
  - rewrite bool_decide_eq_true_2 in H by done.
    rewrite (bind_inr _ _ _ _ _ (dict_getitem_ref _ _ _ _ _ Hm Hk)) in H. cbv beta in H.
    peel H Esp h1 parts. apply py_split_ok in Esp as [-> [s [-> Hparts]]].
    destruct parts as [|p0 [|p1 [|p2 ps]]] eqn:Ep;
      try (unfold mret, M_ret in H; injection H as <- _;
           exists es; split; [|by rewrite insert_id];
           right; exists (VStr s); split; [by eexists|]; split; [by rewrite entry_set_id|];
           intros s' Hs'; rewrite Hk in Hs'; injection Hs' as <-;
           unfold email_mask; by rewrite <- Hparts).
    rewrite (dict_setitem_ref _ _ _ _ _ Hm) in H. injection H as <- _.
    eexists. split; [|done].
    right. eexists. split; [by eexists|]. split; [done|].
    intros s' Hs'. rewrite Hk in Hs'. injection Hs' as <-.
    unfold email_mask. by rewrite <- Hparts.
  - rewrite bool_decide_eq_false_2 in H by (intros [? ?]; discriminate).
    unfold mret, M_ret in H. injection H as <- _.
    exists es. split; [left; done|]. by rewrite insert_id.
Qed.

Lemma mask_phone_ok h0 m es h' u : h0 !! m = Some (ODict es) ->
  mask_phone (VRef m) h0 = (h', inr u) ->
  exists es', field_step "phone" phone_mask es es' /\ h' = <[m := ODict es']> h0.
Proof.
  intros Hm H. unfold mask_phone in H.
  rewrite (bind_inr _ _ _ _ _ (dict_contains_ref _ _ _ _ Hm)) in H. cbv beta in H.
  destruct (entry_lookup "phone" es) as [v|] eqn:Hk.
  - rewrite bool_decide_eq_true_2 in H by done.
    rewrite (bind_inr _ _ _ _ _ (dict_getitem_ref _ _ _ _ _ Hm Hk)) in H. cbv beta in H.
    peel H Es h1 tl0. peel H Ea h2 v'.
    apply py_add_str_ok in Ea as [-> [t [-> ->]]].
    apply py_slice_str_ok in Es as [-> [s [-> ->]]].
    rewrite (dict_setitem_ref _ _ _ _ _ Hm) in H. injection H as <- _.
    eexists. split; [|done].
    right. eexists. split; [by eexists|]. split; [done|].
    intros s' Hs'. rewrite Hk in Hs'. by injection Hs' as <-.
  - rewrite bool_decide_eq_false_2 in H by (intros [? ?]; discriminate).
    unfold mret, M_ret in H. injection H as <- _.
    exists es. split; [left; done|]. by rewrite insert_id.
Qed.

(** ** Each masking step on a str field runs to completion *)

(** Evaluate the first bind of the goal [(c ≫= k) h = _] where the run of
    [c] is known. *)
Ltac run_step Hm :=
  rewrite ?bind_assoc_run;
  erewrite bind_inr; cycle 1;
  [ first [ reflexivity
          | apply (dict_contains_ref _ _ _ _ Hm)
          | eapply (dict_getitem_ref _ _ _ _ _ Hm); eassumption ]
  | cbv beta ].

Lemma field_str_spec es k v : field_str es k = true -> entry_lookup k es = Some v -> exists s, v = VStr s.
Proof. unfold field_str. intros Hs Hk. rewrite Hk in Hs. destruct v; naive_solver. Qed.

Lemma mask_name_str h0 m es : h0 !! m = Some (ODict es) -> field_str es "name" = true ->
  exists es', mask_name (VRef m) h0 = (<[m := ODict es']> h0, inr tt) /\
     forall k, k <> "name" -> entry_lookup k es' = entry_lookup k es.
Proof.
  intros Hm Hs. unfold mask_name.
  destruct (entry_lookup "name" es) as [v|] eqn:Hk.
  - destruct (field_str_spec _ _ _ Hs Hk) as [s ->].
    destruct (2 <? String.length s)%nat eqn:Hlt;
      (eexists; split; [| intros k Hne; by apply entry_lookup_set_ne]);
      run_step Hm; rewrite Hk, bool_decide_eq_true_2 by done;
      run_step Hm; run_step Hm; rewrite Hlt.
    + run_step Hm. run_step Hm. run_step Hm. apply (dict_setitem_ref _ _ _ _ _ Hm).
    + run_step Hm. apply (dict_setitem_ref _ _ _ _ _ Hm).
  - exists es. split; [|done].
    run_step Hm. rewrite Hk, bool_decide_eq_false_2 by (intros [? ?]; discriminate).
    by rewrite insert_id.
Qed.

Lemma mask_email_str h0 m es : h0 !! m = Some (ODict es) -> field_str es "email" = true ->
  exists es', mask_email (VRef m) h0 = (<[m := ODict es']> h0, inr tt) /\
     forall k, k <> "email" -> entry_lookup k es' = entry_lookup k es.
Proof.
  intros Hm Hs. unfold mask_email.
  destruct (entry_lookup "email" es) as [v|] eqn:Hk.
  - destruct (field_str_spec _ _ _ Hs Hk) as [s ->].
    destruct (str_split "@"%char s) as [|p0 [|p1 [|p2 ps]]] eqn:Hp;
      try (exists es; split; [|done];
           run_step Hm; rewrite Hk, bool_decide_eq_true_2 by done;
           run_step Hm; run_step Hm; rewrite Hp; by rewrite insert_id).
    eexists; split; [| intros k Hne; by apply entry_lookup_set_ne].
    run_step Hm; rewrite Hk, bool_decide_eq_true_2 by done.
    run_step Hm; run_step Hm; rewrite Hp. apply (dict_setitem_ref _ _ _ _ _ Hm).
  - exists es. split; [|done].
    run_step Hm. rewrite Hk, bool_decide_eq_false_2 by (intros [? ?]; discriminate).
    by rewrite insert_id.
Qed.

Lemma mask_phone_str h0 m es : h0 !! m = Some (ODict es) -> field_str es "phone" = true ->
  exists es', mask_phone (VRef m) h0 = (<[m := ODict es']> h0, inr tt) /\
     forall k, k <> "phone" -> entry_lookup k es' = entry_lookup k es.
Proof.
  intros Hm Hs. unfold mask_phone.
  destruct (entry_lookup "phone" es) as [v|] eqn:Hk.
  - destruct (field_str_spec _ _ _ Hs Hk) as [s ->].
    eexists; split; [| intros k Hne; by apply entry_lookup_set_ne].
    run_step Hm; rewrite Hk, bool_decide_eq_true_2 by done.
    run_step Hm. run_step Hm. run_step Hm. apply (dict_setitem_ref _ _ _ _ _ Hm).
  - exists es. split; [|done].
    run_step Hm. rewrite Hk, bool_decide_eq_false_2 by (intros [? ?]; discriminate).
    by rewrite insert_id.
Qed.

(** ** The whole of [mask_pii] *)

Lemma dict_copy_ref h l es : h !! l = Some (ODict es) ->
  dict_copy (VRef l) h = (<[fresh (dom h) := ODict es]> h, inr (VRef (fresh (dom h)))).
Proof. intros Hl. unfold dict_copy. by rewrite (bind_inr _ _ _ _ _ (load_dict_ref _ _ _ Hl)). Qed.

(** A successful run writes one new dict, at a fresh location, whose
    entries are those of the input after the three masking steps. *)
Lemma mask_pii_ok h l es h' r : h !! l = Some (ODict es) ->
  mask_pii (VRef l) h = (h', inr r) ->
  exists es1 es2 es3,
    field_step "name" name_mask es es1 /\ field_step "email" email_mask es1 es2 /\
    field_step "phone" phone_mask es2 es3 /\
    r = VRef (fresh (dom h)) /\ h' = <[fresh (dom h) := ODict es3]> h.
Proof.
  intros Hl H. unfold mask_pii in H.
  rewrite (bind_inr _ _ _ _ _ (dict_copy_ref _ _ _ Hl)) in H. cbv beta in H.
  set (m := fresh (dom h)) in *.
  peel H Ec1 h1 u1.
  apply mask_name_ok with (es := es) in Ec1 as [es1 [S1 ->]]; [|by simplify_map_eq].
  peel H Ec2 h2 u2.
  apply mask_email_ok with (es := es1) in Ec2 as [es2 [S2 ->]]; [|by simplify_map_eq].
  peel H Ec3 h3 u3.
  apply mask_phone_ok with (es := es2) in Ec3 as [es3 [S3 ->]]; [|by simplify_map_eq].
  unfold mret, M_ret in H. injection H as <- <-.
  exists es1, es2, es3. repeat split; try done.
  by rewrite !insert_insert_eq.
Qed.

Lemma mask_pii_str h l es : h !! l = Some (ODict es) -> pii_fields_str es = true ->
  exists es', mask_pii (VRef l) h = (<[fresh (dom h) := ODict es']> h, inr (VRef (fresh (dom h)))).
Proof.
  intros Hl Hs. unfold pii_fields_str in Hs.
  apply andb_prop in Hs as [Hs Hp]. apply andb_prop in Hs as [Hn He].
  unfold mask_pii.
  rewrite (bind_inr _ _ _ _ _ (dict_copy_ref _ _ _ Hl)). cbv beta.
  set (m := fresh (dom h)).
  destruct (mask_name_str (<[m := ODict es]> h) m es) as [es1 [Ec1 K1]]; [by simplify_map_eq|done|].
  rewrite (bind_inr _ _ _ _ _ Ec1).
  assert (field_str es1 "email" = true) as He1 by (unfold field_str; by rewrite K1).
  destruct (mask_email_str (<[m := ODict es1]> (<[m := ODict es]> h)) m es1) as [es2 [Ec2 K2]];
    [by simplify_map_eq|done|].
  rewrite (bind_inr _ _ _ _ _ Ec2).
  assert (field_str es2 "phone" = true) as Hp2 by (unfold field_str; rewrite K2, K1; done).
  destruct (mask_phone_str (<[m := ODict es2]> (<[m := ODict es1]> (<[m := ODict es]> h))) m es2)
    as [es3 [Ec3 _]]; [by simplify_map_eq|done|].
  rewrite (bind_inr _ _ _ _ _ Ec3).
  exists es3. unfold mret, M_ret. by rewrite !insert_insert_eq.
Qed.

(** ** Frame rules *)

Section Frames.

Variable L : gset loc.

Lemma frames_ret {A} (a : A) : frames L (mret a).
Proof. by intros h _ l _. Qed.

Lemma frames_throw {A} e : frames L (throw (A := A) e).
Proof. by intros h _ l _. Qed.

Lemma frames_load l' : frames L (load l').
Proof. intros h _ l _. unfold load. by destruct (h !! l'). Qed.

Lemma frames_alloc o : frames L (alloc o).
Proof.
  intros h HL l Hl. cbn. rewrite lookup_insert_ne; [done|].
  intros Heq. apply (is_fresh (dom h)). rewrite Heq. set_solver.
Qed.

Lemma frames_store l' o : l' ∉ L -> frames L (store l' o).
Proof. intros Hl' h _ l Hl. cbn. rewrite lookup_insert_ne; [done|]. set_solver. Qed.

Lemma frames_bind {A B} (c : M A) (k : A -> M B) :
  frames L c -> (forall a, frames L (k a)) -> frames L (c ≫= k).
Proof.
  intros Hc Hk h HL l Hl. unfold mbind, M_bind.
  pose proof (Hc h HL) as Hc'. destruct (c h) as [h1 [e|a]]; cbn in *; [by apply Hc'|].
  rewrite Hk; [by apply Hc'| |done].
  intros l' Hl'. apply elem_of_dom. rewrite Hc' by done. apply elem_of_dom. set_solver.
Qed.

End Frames.

Ltac frames_tac :=
  unfold mask_name, mask_email, mask_phone, dict_contains, dict_getitem, dict_setitem,
    load_dict, py_len, py_slice, py_add_str, py_split;
  repeat first
    [ apply frames_bind; intros
    | apply frames_ret
    | apply frames_throw
    | apply frames_load
    | apply frames_alloc
    | apply frames_store; assumption
    | case_match ].

Lemma dict_copy_fresh d h h1 v : dict_copy d h = (h1, inr v) ->
  exists m es, v = VRef m /\ (m ∉ dom h) /\ h1 = <[m := ODict es]> h.
Proof.
  unfold dict_copy. intros H. peel H E h2 es.
  apply load_dict_ok in E as [-> _].
  unfold alloc, mbind, M_bind, mret, M_ret in H. injection H as <- <-.
  exists (fresh (dom h)), es. split; [done|]. split; [apply is_fresh|done].
Qed.

(** Whatever the outcome, every object that existed before the call is
    left as it was. *)
Lemma mask_pii_frame d h l : l ∈ dom h -> (mask_pii d h).1 !! l = h !! l.
Proof.
  intros Hl. unfold mask_pii, mbind at 1, M_bind.
  destruct (dict_copy d h) as [h1 [e|v]] eqn:E.
  - cbn. revert E. unfold dict_copy. intros E.
    assert (frames (dom h) (dict_copy d)) as F.
    { unfold dict_copy. frames_tac. }
    specialize (F h ltac:(done) l Hl). unfold dict_copy in F. by rewrite E in F.
  - apply dict_copy_fresh in E as [m [es [-> [Hm ->]]]].
    assert (frames (dom h) (mask_name (VRef m) ;; mask_email (VRef m) ;; mask_phone (VRef m) ;;
                            mret (VRef m))) as F.
    { frames_tac. }
    rewrite F; [|set_solver|done].
    rewrite lookup_insert_ne; [done|]. set_solver.
Qed.

Lemma field_step_other k k' f es es' : field_step k f es es' -> k' <> k ->
  entry_lookup k' es' = entry_lookup k' es.
Proof. intros [[_ ->] | [v [_ [-> _]]]] Hne; [done|]. by apply entry_lookup_set_ne. Qed.

Lemma field_step_str k f es es' s : field_step k f es es' -> entry_lookup k es = Some (VStr s) ->
  entry_lookup k es' = Some (VStr (f s)).
Proof.
  intros [[Hk _] | [v [Hk [-> Hv]]]] Hs; [congruence|].
  rewrite (Hv s Hs). by apply entry_lookup_set_eq.
Qed.

Lemma field_step_keys k f es es' : field_step k f es es' -> es'.*1 = es.*1.
Proof. intros [[_ ->] | [v [Hk [-> _]]]]; [done|]. by apply entry_set_keys. Qed.

Lemma mask_pii_out h l es h' r : h !! l = Some (ODict es) ->
  mask_pii (VRef l) h = (h', inr r) ->
  exists es1 es2 es3,
    field_step "name" name_mask es es1 /\ field_step "email" email_mask es1 es2 /\
    field_step "phone" phone_mask es2 es3 /\ run_dict (h', inr r) = Some es3.
Proof.
  intros Hl H. destruct (mask_pii_ok _ _ _ _ _ Hl H) as (es1 & es2 & es3 & S1 & S2 & S3 & -> & ->).
  exists es1, es2, es3. repeat split; try done. cbn. by rewrite lookup_insert_eq.
Qed.

Lemma mask_pii_name h l es h' r s : h !! l = Some (ODict es) ->
  entry_lookup "name" es = Some (VStr s) -> mask_pii (VRef l) h = (h', inr r) ->
  run_field (h', inr r) "name" = Some (VStr (name_mask s)).
Proof.
  intros Hl Hs H. destruct (mask_pii_out _ _ _ _ _ Hl H) as (es1 & es2 & es3 & S1 & S2 & S3 & Hd).
  unfold run_field. rewrite Hd.
  rewrite (field_step_other _ _ _ _ _ S3) by done.
  rewrite (field_step_other _ _ _ _ _ S2) by done.
  by apply (field_step_str _ _ _ _ _ S1).
Qed.

Lemma mask_pii_email h l es h' r s : h !! l = Some (ODict es) ->
  entry_lookup "email" es = Some (VStr s) -> mask_pii (VRef l) h = (h', inr r) ->
  run_field (h', inr r) "email" = Some (VStr (email_mask s)).
Proof.
  intros Hl Hs H. destruct (mask_pii_out _ _ _ _ _ Hl H) as (es1 & es2 & es3 & S1 & S2 & S3 & Hd).
  unfold run_field. rewrite Hd.
  rewrite (field_step_other _ _ _ _ _ S3) by done.
  apply (field_step_str _ _ _ _ _ S2).
  by rewrite (field_step_other _ _ _ _ _ S1).
Qed.

Lemma mask_pii_phone h l es h' r s : h !! l = Some (ODict es) ->
  entry_lookup "phone" es = Some (VStr s) -> mask_pii (VRef l) h = (h', inr r) ->
  run_field (h', inr r) "phone" = Some (VStr (phone_mask s)).
Proof.
  intros Hl Hs H. destruct (mask_pii_out _ _ _ _ _ Hl H) as (es1 & es2 & es3 & S1 & S2 & S3 & Hd).
  unfold run_field. rewrite Hd.
  apply (field_step_str _ _ _ _ _ S3).
  rewrite (field_step_other _ _ _ _ _ S2) by done.
  by rewrite (field_step_other _ _ _ _ _ S1).
Qed.

(** ** Strings: slices and [split] *)

Lemma slice_bound_neg n k : (0 < k)%nat -> slice_bound n (- Z.of_nat k) = (n - k)%nat.
Proof.
  intros Hk. unfold slice_bound.
  replace (- Z.of_nat k <? 0) with true by (symmetry; apply Z.ltb_lt; lia).
  lia.
Qed.

Lemma slice_bound_pos n k : slice_bound n (Z.of_nat k) = Nat.min k n.
Proof.
  unfold slice_bound.
  replace (Z.of_nat k <? 0) with false by (symmetry; apply Z.ltb_ge; lia).
  lia.
Qed.

Lemma substring_all s : String.substring 0 (String.length s) s = s.
Proof. induction s as [|c s IH]; cbn; [done|]. by rewrite IH. Qed.

Lemma substring_min_prefix s n : String.substring 0 (Nat.min n (String.length s)) s = String.substring 0 n s.
Proof.
  revert n. induction s as [|c s IH]; intros [|n]; cbn; try done.
  by rewrite IH.
Qed.

(** [s[-k:]] is the last [k] characters of [s], or all of [s] when it is
    shorter. *)
Lemma str_slice_last s k : (0 < k)%nat ->
  str_slice s (Some (- Z.of_nat k)) None =
  if (k <=? String.length s)%nat then String.substring (String.length s - k) k s else s.
Proof.
  intros Hk. unfold str_slice, slice_range. rewrite slice_bound_neg by done.
  destruct (k <=? String.length s)%nat eqn:Hle.
  - apply Nat.leb_le in Hle. f_equal. lia.
  - apply Nat.leb_gt in Hle. replace (String.length s - k)%nat with 0%nat by lia.
    rewrite Nat.sub_0_r. apply substring_all.
Qed.

(** [s[:k]] is the first [k] characters of [s] (all of them when shorter). *)
Lemma str_slice_first s k : str_slice s None (Some (Z.of_nat k)) = String.substring 0 k s.
Proof.
  unfold str_slice, slice_range. rewrite slice_bound_pos, Nat.sub_0_r.
  apply substring_min_prefix.
Qed.

Lemma str_split_length c s : length (str_split c s) = S (char_count c s).
Proof.
  induction s as [|c' s IH]; cbn; [done|].
  destruct (Ascii.eqb c' c); cbn; [by rewrite IH|].
  destruct (str_split c s); cbn in *; lia.
Qed.

Lemma str_split_none c s : char_count c s = 0%nat -> str_split c s = [s].
Proof.
  induction s as [|c' s IH]; cbn; [done|].
  destruct (Ascii.eqb c' c); cbn; [lia|]. intros H. by rewrite IH.
Qed.

Lemma str_app_nil s : "" +:+ s = s.
Proof. reflexivity. Qed.

Lemma str_app_cons c s1 s2 : String c s1 +:+ s2 = String c (s1 +:+ s2).
Proof. reflexivity. Qed.

Lemma str_split_one c lp dp : char_count c lp = 0%nat -> char_count c dp = 0%nat ->
  str_split c (lp +:+ String c dp) = [lp; dp].
Proof.
  intros Hl Hd. induction lp as [|c' lp IH]; rewrite ?str_app_nil, ?str_app_cons; cbn.
  - replace (Ascii.eqb c c) with true by (symmetry; apply Ascii.eqb_eq; done).
    by rewrite str_split_none.
  - cbn in Hl. destruct (Ascii.eqb c' c); [lia|]. by rewrite IH.
Qed.

(** * Claims *)

(** ** apply_differential_privacy *)

Lemma apply_dp_pos value epsilon :
  (0 < epsilon)%R ->
  apply_differential_privacy value epsilon =
    SLaplace 0%R (0.1 / epsilon)%R (fun noise =>
      if Rlt_dec 0 value then SRet (py_max 0 (value + noise)) else SRet (value + noise)%R).
Proof.
  intros Heps. unfold apply_differential_privacy.
  destruct (Req_EM_T epsilon 0); [lra|].
  assert (0 < 0.1 / epsilon)%R by (apply Rdiv_lt_0_compat; lra).
  cbv zeta. destruct (Rlt_dec (0.1 / epsilon) 0); [lra|]. done.
Qed.

Lemma py_max_Rmax a b : py_max a b = Rmax a b.
Proof. unfold py_max, Rmax. destruct (Rlt_dec a b), (Rle_dec a b); lra. Qed.

(** C1: for a valid [epsilon > 0] and noise sample [n],
    [apply_differential_privacy value eps] returns [max(0, value + n)] when
    [value > 0] and [value + n] otherwise; so the result is non-negative
    for [value > 0], and for [value <= 0] it is negative whenever
    [n < -value].  (At [epsilon <= 0] it raises instead.) *)
Theorem apply_dp_postprocess (value epsilon noise : R) :
  (0 < epsilon)%R ->
  dp_output value epsilon noise =
    Some (if Rlt_dec 0 value then Rmax 0 (value + noise) else (value + noise)%R) /\
  ((0 < value)%R -> exists r, dp_output value epsilon noise = Some r /\ (0 <= r)%R) /\
  ((value <= 0)%R -> (noise < - value)%R ->
     exists r, dp_output value epsilon noise = Some r /\ (r < 0)%R).
Proof.
  intros Heps. unfold dp_output. rewrite apply_dp_pos by done. cbn.
  destruct (Rlt_dec 0 value) as [Hv|Hv]; rewrite ?py_max_Rmax; cbn.
  - split; [done|]. split.
    + intros _. eexists. split; [done|]. apply Rmax_l.
    + intros Hle. lra.
  - split; [done|]. split; [intros; lra|].
    intros _ Hn. eexists. split; [done|]. lra.
Qed.

Lemma apply_dp_postprocess_witness :
  (0 < 1 / 10)%R /\
  dp_output 5 (1 / 10) (-7) = Some 0%R /\ dp_output (-1) (1 / 10) (1 / 2) = Some (-1 / 2)%R.
Proof.
  split; [lra|].
  destruct (apply_dp_postprocess 5 (1 / 10) (-7) ltac:(lra)) as [H1 _].
  destruct (apply_dp_postprocess (-1) (1 / 10) (1 / 2) ltac:(lra)) as [H2 _].
  rewrite H1, H2. split.
  - destruct (Rlt_dec 0 5); [|lra]. f_equal. unfold Rmax. destruct (Rle_dec 0 (5 + -7)); lra.
  - destruct (Rlt_dec 0 (-1)); [lra|]. f_equal. lra.
Defined.

(** C8: for [epsilon > 0], [apply_differential_privacy] makes exactly one
    draw, from the Laplace distribution centred at 0 with scale
    [0.1 / epsilon], and adds the sample to [value] before the
    post-processing; at [epsilon = 0.1] (the default) the scale is 1. *)
Theorem apply_dp_laplace_draw (value epsilon noise : R) (rest : list R) :
  (0 < epsilon)%R ->
  run_samp (apply_differential_privacy value epsilon) (noise :: rest) =
    Some (if Rlt_dec 0 value then py_max 0 (value + noise) else (value + noise)%R,
          [(0%R, (0.1 / epsilon)%R)]) /\
  run_samp (apply_differential_privacy value epsilon) [] = None /\
  (epsilon = DIFFERENTIAL_PRIVACY_EPSILON ->
     snd <$> run_samp (apply_differential_privacy value epsilon) (noise :: rest) = Some [(0%R, 1%R)]).
Proof.
  intros Heps. rewrite apply_dp_pos by done. cbn.
  assert (E : run_samp (if Rlt_dec 0 value then SRet (py_max 0 (value + noise))
                        else SRet (value + noise)%R) rest =
              Some (if Rlt_dec 0 value then py_max 0 (value + noise) else (value + noise)%R, []))
    by (destruct (Rlt_dec 0 value); done).
  rewrite E. split; [done|]. split; [done|].
  intros ->. unfold DIFFERENTIAL_PRIVACY_EPSILON. cbn. do 3 f_equal. lra.
Qed.

Lemma apply_dp_laplace_draw_witness :
  (0 < 1 / 10)%R /\
  snd <$> run_samp (apply_differential_privacy 5 (1 / 10)) [1 / 4]%R = Some [(0%R, 1%R)].
Proof.
  split; [lra|].
  destruct (apply_dp_laplace_draw 5 (1 / 10) (1 / 4) [] ltac:(lra)) as [_ [_ H]].
  by apply H.
Defined.

(** ** mask_pii *)

(** C2: a str [name] longer than 2 characters becomes ["***"] followed by
    its last 2 characters, otherwise exactly ["***"]; e.g. "Al" gives
    "***" and "John Smith" gives "***th". *)
Theorem mask_pii_name_spec h l es s h' r :
  h !! l = Some (ODict es) -> entry_lookup "name" es = Some (VStr s) ->
  mask_pii (VRef l) h = (h', inr r) ->
  run_field (h', inr r) "name" =
    Some (VStr (if (2 <? String.length s)%nat
                then "***" +:+ String.substring (String.length s - 2) 2 s else "***")) /\
  run_field (mask_record [("name", VStr "Al")]) "name" = Some (VStr "***") /\
  run_field (mask_record [("name", VStr "John Smith")]) "name" = Some (VStr "***th").
Proof.
  intros Hl Hs H. split; [|split; vm_compute; reflexivity].
  rewrite (mask_pii_name _ _ _ _ _ _ Hl Hs H). unfold name_mask.
  destruct (2 <? String.length s)%nat eqn:Hlt; [|done].
  change (Some (-2)) with (Some (- Z.of_nat 2)). rewrite str_slice_last by lia.
  apply Nat.ltb_lt in Hlt. replace (2 <=? String.length s)%nat with true; [done|].
  symmetry. apply Nat.leb_le. lia.
Qed.

Lemma mask_pii_name_spec_witness :
  mask_record [("name", VStr "Bob"); ("age", VInt 41)] =
    ((mask_record [("name", VStr "Bob"); ("age", VInt 41)]).1, inr (VRef 1%nat)) /\
  run_field ((mask_record [("name", VStr "Bob"); ("age", VInt 41)]).1, inr (VRef 1%nat)) "name" =
    Some (VStr "***ob").
Proof.
  assert (E : mask_record [("name", VStr "Bob"); ("age", VInt 41)] =
    ((mask_record [("name", VStr "Bob"); ("age", VInt 41)]).1, inr (VRef 1%nat)))
    by (vm_compute; reflexivity).
  split; [exact E|].
  destruct (mask_pii_name_spec (record_heap [("name", VStr "Bob"); ("age", VInt 41)]) 0%nat
              [("name", VStr "Bob"); ("age", VInt 41)] "Bob" _ (VRef 1%nat)
              eq_refl eq_refl E) as [H _].
  rewrite H. reflexivity.
Defined.

(** C3: a str [email] with exactly one "@" (so that [split("@")] yields
    two parts) becomes the first 2 characters of the local part, "***@"
    and the domain; with zero or several "@" it is left as it is; e.g.
    "john.smith@email.com" gives "jo***@email.com" and "not-an-email" is
    kept. *)
Theorem mask_pii_email_spec h l es s h' r :
  h !! l = Some (ODict es) -> entry_lookup "email" es = Some (VStr s) ->
  mask_pii (VRef l) h = (h', inr r) ->
  (forall lp dp, s = lp +:+ String "@" dp -> char_count "@" lp = 0%nat -> char_count "@" dp = 0%nat ->
     run_field (h', inr r) "email" = Some (VStr (String.substring 0 2 lp +:+ "***@" +:+ dp))) /\
  (char_count "@" s <> 1%nat -> run_field (h', inr r) "email" = Some (VStr s)) /\
  run_field (mask_record [("email", VStr "john.smith@email.com")]) "email" =
    Some (VStr "jo***@email.com") /\
  run_field (mask_record [("email", VStr "not-an-email")]) "email" = Some (VStr "not-an-email").
Proof.
  intros Hl Hs H. rewrite (mask_pii_email _ _ _ _ _ _ Hl Hs H).
  split; [|split; [|split; vm_compute; reflexivity]].
  - intros lp dp -> Hlp Hdp. unfold email_mask. rewrite str_split_one by done.
    change (Some 2) with (Some (Z.of_nat 2)). by rewrite str_slice_first.
  - intros Hc. unfold email_mask. pose proof (str_split_length "@" s) as Hlen.
    destruct (str_split "@" s) as [|p0 [|p1 [|p2 ps]]]; cbn in Hlen; try done. lia.
Qed.

Lemma mask_pii_email_spec_witness :
  mask_record [("email", VStr "ann@x.org")] =
    ((mask_record [("email", VStr "ann@x.org")]).1, inr (VRef 1%nat)) /\
  run_field ((mask_record [("email", VStr "ann@x.org")]).1, inr (VRef 1%nat)) "email" =
    Some (VStr "an***@x.org").
Proof.
  assert (E : mask_record [("email", VStr "ann@x.org")] =
    ((mask_record [("email", VStr "ann@x.org")]).1, inr (VRef 1%nat)))
    by (vm_compute; reflexivity).
  split; [exact E|].
  destruct (mask_pii_email_spec (record_heap [("email", VStr "ann@x.org")]) 0%nat
              [("email", VStr "ann@x.org")] "ann@x.org" _ (VRef 1%nat)
              eq_refl eq_refl E) as [H _].
  by apply (H "ann" "x.org").
Defined.

(** C4: a str [phone] of at least 4 characters becomes "***-***-"
    followed by its last 4 characters; e.g. "555-0123" gives
    "***-***-0123". *)
Theorem mask_pii_phone_spec h l es s h' r :
  h !! l = Some (ODict es) -> entry_lookup "phone" es = Some (VStr s) ->
  (4 <= String.length s)%nat ->
  mask_pii (VRef l) h = (h', inr r) ->
  run_field (h', inr r) "phone" =
    Some (VStr ("***-***-" +:+ String.substring (String.length s - 4) 4 s)) /\
  run_field (mask_record [("phone", VStr "555-0123")]) "phone" = Some (VStr "***-***-0123").
Proof.
  intros Hl Hs Hlen H. split; [|vm_compute; reflexivity].
  rewrite (mask_pii_phone _ _ _ _ _ _ Hl Hs H). unfold phone_mask.
  change (Some (-4)) with (Some (- Z.of_nat 4)). rewrite str_slice_last by lia.
  apply Nat.leb_le in Hlen. by rewrite Hlen.
Qed.

Lemma mask_pii_phone_spec_witness :
  (4 <= String.length "555-0123")%nat /\
  mask_record [("phone", VStr "555-0123")] =
    ((mask_record [("phone", VStr "555-0123")]).1, inr (VRef 1%nat)) /\
  run_field ((mask_record [("phone", VStr "555-0123")]).1, inr (VRef 1%nat)) "phone" =
    Some (VStr "***-***-0123").
Proof.
  assert (E : mask_record [("phone", VStr "555-0123")] =
    ((mask_record [("phone", VStr "555-0123")]).1, inr (VRef 1%nat)))
    by (vm_compute; reflexivity).
  split; [cbn; lia|]. split; [exact E|].
  destruct (mask_pii_phone_spec (record_heap [("phone", VStr "555-0123")]) 0%nat
              [("phone", VStr "555-0123")] "555-0123" _ (VRef 1%nat)
              eq_refl eq_refl ltac:(cbn; lia) E) as [H _].
  by rewrite H.
Defined.

(** C9: a str [phone] shorter than 4 characters becomes "***-***-"
    followed by the whole string; the empty phone gives "***-***-". *)
Theorem mask_pii_short_phone h l es s h' r :
  h !! l = Some (ODict es) -> entry_lookup "phone" es = Some (VStr s) ->
  (String.length s < 4)%nat ->
  mask_pii (VRef l) h = (h', inr r) ->
  run_field (h', inr r) "phone" = Some (VStr ("***-***-" +:+ s)) /\
  run_field (mask_record [("phone", VStr "")]) "phone" = Some (VStr "***-***-").
Proof.
  intros Hl Hs Hlen H. split; [|vm_compute; reflexivity].
  rewrite (mask_pii_phone _ _ _ _ _ _ Hl Hs H). unfold phone_mask.
  change (Some (-4)) with (Some (- Z.of_nat 4)). rewrite str_slice_last by lia.
  apply Nat.leb_gt in Hlen. by rewrite Hlen.
Qed.

Lemma mask_pii_short_phone_witness :
  (String.length "12" < 4)%nat /\
  mask_record [("phone", VStr "12")] = ((mask_record [("phone", VStr "12")]).1, inr (VRef 1%nat)) /\
  run_field ((mask_record [("phone", VStr "12")]).1, inr (VRef 1%nat)) "phone" = Some (VStr "***-***-12").
Proof.
  assert (E : mask_record [("phone", VStr "12")] =
    ((mask_record [("phone", VStr "12")]).1, inr (VRef 1%nat)))
    by (vm_compute; reflexivity).
  split; [cbn; lia|]. split; [exact E|].
  destruct (mask_pii_short_phone (record_heap [("phone", VStr "12")]) 0%nat
              [("phone", VStr "12")] "12" _ (VRef 1%nat)
              eq_refl eq_refl ltac:(cbn; lia) E) as [H _].
  by rewrite H.
Defined.

(** C7: when [mask_pii] returns, every key other than name, email and
    phone has in the result the value it has in the input. *)
Theorem mask_pii_non_pii h l es h' r k :
  h !! l = Some (ODict es) -> mask_pii (VRef l) h = (h', inr r) ->
  k <> "name" -> k <> "email" -> k <> "phone" ->
  run_field (h', inr r) k = entry_lookup k es.
Proof.
  intros Hl H Hn He Hp.
  destruct (mask_pii_out _ _ _ _ _ Hl H) as (es1 & es2 & es3 & S1 & S2 & S3 & Hd).
  unfold run_field. rewrite Hd.
  rewrite (field_step_other _ _ _ _ _ S3), (field_step_other _ _ _ _ _ S2),
    (field_step_other _ _ _ _ _ S1) by done.
  done.
Qed.

Lemma mask_pii_non_pii_witness :
  mask_record [("name", VStr "Al"); ("age", VInt 35)] =
    ((mask_record [("name", VStr "Al"); ("age", VInt 35)]).1, inr (VRef 1%nat)) /\
  run_field ((mask_record [("name", VStr "Al"); ("age", VInt 35)]).1, inr (VRef 1%nat)) "age" =
    Some (VInt 35).
Proof.
  assert (E : mask_record [("name", VStr "Al"); ("age", VInt 35)] =
    ((mask_record [("name", VStr "Al"); ("age", VInt 35)]).1, inr (VRef 1%nat)))
    by (vm_compute; reflexivity).
  split; [exact E|].
  exact (mask_pii_non_pii (record_heap [("name", VStr "Al"); ("age", VInt 35)]) 0%nat
           [("name", VStr "Al"); ("age", VInt 35)] _ (VRef 1%nat) "age"
           eq_refl E ltac:(done) ltac:(done) ltac:(done)).
Defined.

(** C10: when [mask_pii] returns, the result has exactly the keys of the
    input, in the same order. *)
Theorem mask_pii_same_keys h l es h' r :
  h !! l = Some (ODict es) -> mask_pii (VRef l) h = (h', inr r) ->
  exists es', run_dict (h', inr r) = Some es' /\ es'.*1 = es.*1.
Proof.
  intros Hl H.
  destruct (mask_pii_out _ _ _ _ _ Hl H) as (es1 & es2 & es3 & S1 & S2 & S3 & Hd).
  exists es3. split; [done|].
  by rewrite (field_step_keys _ _ _ _ S3), (field_step_keys _ _ _ _ S2),
    (field_step_keys _ _ _ _ S1).
Qed.

Lemma mask_pii_same_keys_witness :
  mask_record [("phone", VStr "555-0123"); ("income", VInt 75000)] =
    ((mask_record [("phone", VStr "555-0123"); ("income", VInt 75000)]).1, inr (VRef 1%nat)) /\
  exists es', run_dict ((mask_record [("phone", VStr "555-0123"); ("income", VInt 75000)]).1,
                        inr (VRef 1%nat)) = Some es' /\ es'.*1 = ["phone"; "income"].
Proof.
  assert (E : mask_record [("phone", VStr "555-0123"); ("income", VInt 75000)] =
    ((mask_record [("phone", VStr "555-0123"); ("income", VInt 75000)]).1, inr (VRef 1%nat)))
    by (vm_compute; reflexivity).
  split; [exact E|].
  exact (mask_pii_same_keys (record_heap [("phone", VStr "555-0123"); ("income", VInt 75000)]) 0%nat
           [("phone", VStr "555-0123"); ("income", VInt 75000)] _ (VRef 1%nat) eq_refl E).
Defined.

(** C5, counterexample: the copy is shallow.  For the record
    [{"tags": [1]}] the returned dict holds the very list object (location
    0) that the input holds, so the result aliases a nested mutable
    structure of the input. *)
Lemma mask_pii_shares_nested_list :
  alias_heap !! 1%nat = Some (ODict [("tags", VRef 0%nat)]) /\
  alias_heap !! 0%nat = Some (OList [VInt 1]) /\
  (mask_pii (VRef 1%nat) alias_heap).2 = inr (VRef 2%nat) /\
  run_field (mask_pii (VRef 1%nat) alias_heap) "tags" = Some (VRef 0%nat).
Proof. vm_compute. repeat split. Qed.

(** C5, as the code has it: whatever the outcome, every object that existed
    before the call (the input record among them) is unchanged; when
    [mask_pii] returns, the result is a dict at a new location whose
    non-PII values are the input's very values, references to nested
    objects included (a shallow copy). *)
Theorem mask_pii_input_unchanged h l es :
  h !! l = Some (ODict es) ->
  (forall l', l' ∈ dom h -> (mask_pii (VRef l) h).1 !! l' = h !! l') /\
  (forall h' r, mask_pii (VRef l) h = (h', inr r) ->
     exists m, r = VRef m /\ (m ∉ dom h) /\
       forall k, k <> "name" -> k <> "email" -> k <> "phone" ->
         run_field (h', inr r) k = entry_lookup k es).
Proof.
  intros Hl. split; [intros l'; apply mask_pii_frame|].
  intros h' r H. destruct (mask_pii_out _ _ _ _ _ Hl H) as (es1 & es2 & es3 & S1 & S2 & S3 & Hd).
  destruct (mask_pii_ok _ _ _ _ _ Hl H) as (? & ? & ? & _ & _ & _ & -> & _).
  exists (fresh (dom h)). split; [done|]. split; [apply is_fresh|].
  intros k Hn He Hp. unfold run_field. rewrite Hd.
  by rewrite (field_step_other _ _ _ _ _ S3), (field_step_other _ _ _ _ _ S2),
    (field_step_other _ _ _ _ _ S1).
Qed.

Lemma mask_pii_input_unchanged_witness :
  (mask_pii (VRef 1%nat) alias_heap).1 !! 1%nat = Some (ODict [("tags", VRef 0%nat)]).
Proof.
  destruct (mask_pii_input_unchanged alias_heap 1%nat [("tags", VRef 0%nat)] eq_refl) as [H _].
  rewrite H; [reflexivity|]. vm_compute. set_solver.
Defined.

(** C6, counterexample: a non-str PII field is not left as it is.  An int
    name raises TypeError (from [len]), an int email raises AttributeError
    (no [split]), an int phone raises TypeError (not subscriptable). *)
Lemma mask_pii_raises_on_int_fields :
  (mask_record [("name", VInt 5)]).2 = inl TypeError /\
  (mask_record [("email", VInt 5)]).2 = inl AttributeError /\
  (mask_record [("phone", VInt 5550123)]).2 = inl TypeError.
Proof. vm_compute. repeat split. Qed.

(** C6, as the code has it: on a record whose name, email and phone are
    each absent or a str, [mask_pii] returns normally (it never raises),
    whatever the other fields hold. *)
Theorem mask_pii_total_on_str_fields h l es :
  h !! l = Some (ODict es) -> pii_fields_str es = true ->
  exists h' r, mask_pii (VRef l) h = (h', inr r).
Proof.
  intros Hl Hs. destruct (mask_pii_str _ _ _ Hl Hs) as [es' E]. eauto.
Qed.

Lemma mask_pii_total_on_str_fields_witness :
  exists h' r, mask_record [("name", VStr "A"); ("age", VNone); ("phone", VStr "")] = (h', inr r).
Proof.
  exact (mask_pii_total_on_str_fields
           (record_heap [("name", VStr "A"); ("age", VNone); ("phone", VStr "")]) 0%nat
           [("name", VStr "A"); ("age", VNone); ("phone", VStr "")] eq_refl eq_refl).
Defined.

(** ** Str-keyed dicts *)

Section Assoc.
Context {V : Type}.
Implicit Types (d : list (string * V)) (v : V).

Lemma alookup_aset_eq k v d : alookup k (aset k v d) = Some v.
Proof.
  induction d as [|[k' v'] d IH]; cbn; [by rewrite String.eqb_refl|].
  destruct (String.eqb k k') eqn:E; cbn.
  - apply String.eqb_eq in E; subst. by rewrite String.eqb_refl.
  - by rewrite E.
Qed.

Lemma alookup_aset_ne k k' v d : k' <> k -> alookup k' (aset k v d) = alookup k' d.
Proof.
  intros Hne. induction d as [|[k'' v'] d IH]; cbn.
  - destruct (String.eqb k' k) eqn:E; [apply String.eqb_eq in E; congruence|done].
  - destruct (String.eqb k k'') eqn:E; cbn.
    + apply String.eqb_eq in E; subst.
      destruct (String.eqb k' k'') eqn:E'; [apply String.eqb_eq in E'; congruence|done].
    + by rewrite IH.
Qed.

Lemma alookup_In k v d : alookup k d = Some v -> In (k, v) d.
Proof.
  induction d as [|[k' v'] d IH]; cbn; [done|].
  destruct (String.eqb k k') eqn:E; [apply String.eqb_eq in E; subst; intros [= ->]; by left|].
  intros H. right. by apply IH.
Qed.

Lemma alookup_None k d : alookup k d = None <-> ~ In k (map fst d).
Proof.
  induction d as [|[k' v'] d IH]; cbn; [tauto|].
  destruct (String.eqb k k') eqn:E.
  - apply String.eqb_eq in E; subst. split; [done|]. intros H. exfalso. apply H. by left.
  - apply String.eqb_neq in E. rewrite IH. split; [intros H [H'|H']; [congruence|tauto]|intros H H'; apply H; by right].
Qed.

Lemma alookup_NoDup_In k v d : NoDup (map fst d) -> In (k, v) d -> alookup k d = Some v.
Proof.
  induction d as [|[k' v'] d IH]; cbn; [done|].
  intros Hnd [[= -> ->]|Hin]; [by rewrite String.eqb_refl|].
  inversion Hnd as [|? ? Hnin Hnd']; subst.
  destruct (String.eqb k k') eqn:E; [|by apply IH].
  apply String.eqb_eq in E; subst. contradict Hnin.
  apply list_elem_of_In, in_map_iff. by exists (k', v).
Qed.

Lemma keys_aset_in k v d : alookup k d <> None -> map fst (aset k v d) = map fst d.
Proof.
  induction d as [|[k' v'] d IH]; cbn; [done|].
  destruct (String.eqb k k') eqn:E; cbn; [done|]. intros H. by rewrite IH.
Qed.

Lemma keys_aset_notin k v d : alookup k d = None -> map fst (aset k v d) = map fst d ++ [k].
Proof.
  induction d as [|[k' v'] d IH]; cbn; [done|].
  destruct (String.eqb k k') eqn:E; cbn; [done|]. intros H. by rewrite IH.
Qed.

Lemma aset_not_nil k v d : aset k v d <> [].
Proof. destruct d as [|[k' v'] d]; cbn; [done|]. by destruct (String.eqb k k'). Qed.

(** Replacing a value changes a sum of the values by the difference. *)
Lemma aset_sum (f : V -> nat) k v v' d :
  alookup k d = Some v ->
  (fold_right (fun e s => f e.2 + s) 0 (aset k v' d) + f v =
   fold_right (fun e s => f e.2 + s) 0 d + f v')%nat.
Proof.
  induction d as [|[k' v''] d IH]; cbn; [done|].
  destruct (String.eqb k k') eqn:E; cbn.
  - intros [= ->]. lia.
  - intros H. specialize (IH H). lia.
Qed.

End Assoc.

(** ** Grouping loops *)

Section Group.
Context {V : Type} (key : customer -> string) (init : V) (upd : V -> customer -> V).

Lemma group_step_lookup d c k :
  alookup k (group_step key init upd d c) =
  if String.eqb (key c) k then Some (upd (default init (alookup k d)) c) else alookup k d.
Proof.
  unfold group_step; cbv zeta. destruct (String.eqb (key c) k) eqn:E.
  - apply String.eqb_eq in E. rewrite <- E.
    destruct (alookup (key c) d) as [v|] eqn:L.
    + rewrite L. by rewrite alookup_aset_eq.
    + rewrite alookup_aset_eq. by rewrite alookup_aset_eq.
  - apply String.eqb_neq in E.
    assert (Hd1 : alookup k (match alookup (key c) d with None => aset (key c) init d | Some _ => d end)
                  = alookup k d).
    { destruct (alookup (key c) d); [done|]. by apply alookup_aset_ne. }
    set (d1 := match alookup (key c) d with None => aset (key c) init d | Some _ => d end) in *.
    destruct (alookup (key c) d1); [rewrite alookup_aset_ne by congruence|]; exact Hd1.
Qed.

Lemma group_fold_lookup cs d k :
  alookup k (fold_left (group_step key init upd) cs d) =
  match alookup k d, List.filter (fun c => String.eqb (key c) k) cs with
  | Some v, fs => Some (fold_left upd fs v)
  | None, [] => None
  | None, fs => Some (fold_left upd fs init)
  end.
Proof.
  revert d. induction cs as [|c cs IH]; intros d; cbn.
  - by destruct (alookup k d).
  - rewrite IH, group_step_lookup.
    destruct (String.eqb (key c) k) eqn:E; cbn.
    + by destruct (alookup k d).
    + done.
Qed.

Lemma group_step_keys d c :
  map fst (group_step key init upd d c) =
  match alookup (key c) d with Some _ => map fst d | None => map fst d ++ [key c] end.
Proof.
  unfold group_step. destruct (alookup (key c) d) eqn:L.
  - rewrite L. apply keys_aset_in. by rewrite L.
  - rewrite alookup_aset_eq, keys_aset_in by (by rewrite alookup_aset_eq).
    by apply keys_aset_notin.
Qed.

Lemma group_fold_NoDup cs d :
  NoDup (map fst d) -> NoDup (map fst (fold_left (group_step key init upd) cs d)).
Proof.
  revert d. induction cs as [|c cs IH]; intros d Hnd; cbn; [done|].
  apply IH. rewrite group_step_keys. destruct (alookup (key c) d) eqn:L; [done|].
  apply NoDup_app. split; [done|]. split; [|by apply NoDup_singleton].
  intros x Hx Hx'. apply list_elem_of_singleton in Hx'; subst.
  apply list_elem_of_In in Hx. by apply alookup_None in L.
Qed.

Lemma group_fold_keys cs d k :
  In k (map fst (fold_left (group_step key init upd) cs d)) <->
  In k (map fst d) \/ exists c, In c cs /\ key c = k.
Proof.
  revert d. induction cs as [|c cs IH]; intros d; cbn.
  - split; [tauto|]. intros [H|[? [[] _]]]; done.
  - rewrite IH, group_step_keys. destruct (alookup (key c) d) as [v|] eqn:L.
    + split.
      * intros [H|[c' [Hc' <-]]]; [by left|right; eauto].
      * intros [H|[c' [[<-|Hc'] <-]]]; [by left| |right; eauto].
        left. apply alookup_In in L. apply in_map_iff. by exists (key c, v).
    + rewrite in_app_iff. cbn. split.
      * intros [[H|[H|[]]]|[c' [Hc' <-]]]; [by left|subst; right; eauto|right; eauto].
      * intros [H|[c' [[<-|Hc'] <-]]]; [by left; left|left; right; by left|right; eauto].
Qed.

Lemma group_fold_not_nil cs d : d <> [] -> fold_left (group_step key init upd) cs d <> [].
Proof.
  revert d. induction cs as [|c cs IH]; intros d Hd; cbn; [done|].
  apply IH. unfold group_step.
  destruct (alookup (key c) (match alookup (key c) d with None => aset (key c) init d | Some _ => d end));
    [apply aset_not_nil|].
  destruct (alookup (key c) d); [done|apply aset_not_nil].
Qed.

End Group.

(** ** Analytics *)

Lemma regional_upd_fold fs n t :
  fold_left (fun '(n, t) c => (S n, (t + c_income c)%R)) fs (n, t) =
  ((n + length fs)%nat, (t + fold_right Rplus 0%R (map c_income fs))%R).
Proof.
  revert n t. induction fs as [|c fs IH]; intros n t; cbn.
  - f_equal; [lia|ring].
  - rewrite IH. f_equal; [lia|ring].
Qed.

(** In the regional breakdown of [get_customer_analytics], the entry of a
    region holds the number of customers of that region and the sum of
    their incomes; a region no customer has gets no entry. *)
Theorem regional_data_lookup cs r :
  alookup r (regional_data cs) =
  match List.filter (fun c => String.eqb (c_region c) r) cs with
  | [] => None
  | fs => Some (length fs, fold_right Rplus 0%R (map c_income fs))
  end.
Proof.
  unfold regional_data. rewrite group_fold_lookup. cbn.
  destruct (List.filter _ cs) as [|c fs]; [done|].
  rewrite regional_upd_fold. f_equal. f_equal. ring.
Qed.

(** Every region of the breakdown counts at least one customer, so the
    [total_income / count] of [get_customer_analytics] never divides by
    zero; the quotient is the mean income of the region's customers. *)
Theorem regional_data_avg_income cs r n t :
  In (r, (n, t)) (regional_data cs) ->
  (0 < n)%nat /\
  (t / INR n)%R =
    (fold_right Rplus 0%R (map c_income (List.filter (fun c => String.eqb (c_region c) r) cs)) /
     INR (length (List.filter (fun c => String.eqb (c_region c) r) cs)))%R.
Proof.
  intros Hin.
  assert (Hnd : NoDup (map fst (regional_data cs))) by (apply group_fold_NoDup; constructor).
  pose proof (alookup_NoDup_In _ _ _ Hnd Hin) as L.
  rewrite regional_data_lookup in L.
  destruct (List.filter _ cs) as [|c fs]; [done|]. injection L as <- <-. cbn. split; [lia|done].
Qed.

Lemma regional_data_avg_income_witness :
  let cs := [mk_customer "North" 50000 30 "Books" 100 2; mk_customer "North" 70000 40 "Books" 80 3] in
  In ("North", (2%nat, (0 + 50000 + 70000)%R)) (regional_data cs) /\ (0 < 2)%nat /\
  ((0 + 50000 + 70000) / INR 2)%R =
    (fold_right Rplus 0%R (map c_income (List.filter (fun c => String.eqb (c_region c) "North") cs)) /
     INR (length (List.filter (fun c => String.eqb (c_region c) "North") cs)))%R.
Proof.
  cbv zeta. assert (H : In ("North", (2%nat, (0 + 50000 + 70000)%R))
    (regional_data [mk_customer "North" 50000 30 "Books" 100 2; mk_customer "North" 70000 40 "Books" 80 3]))
    by (cbn; left; reflexivity).
  split; [exact H|]. exact (regional_data_avg_income _ "North" 2 _ H).
Defined.

(** The regional breakdown has one entry per region occurring among the
    customers, and no other. *)
Theorem regional_data_keys cs :
  NoDup (map fst (regional_data cs)) /\
  forall r, In r (map fst (regional_data cs)) <-> exists c, In c cs /\ c_region c = r.
Proof.
  split; [apply group_fold_NoDup; constructor|].
  intros r. unfold regional_data. rewrite group_fold_keys. cbn. tauto.
Qed.

(** The regional counts add up to the number of customers: each customer
    is counted in exactly one region. *)
Theorem regional_data_count_sum cs :
  fold_right (fun e s => (e.2.1 + s)%nat) 0%nat (regional_data cs) = length cs.
Proof.
  unfold regional_data.
  enough (H : forall d, fold_right (fun e s => (e.2.1 + s)%nat) 0%nat
                 (fold_left (group_step c_region (0%nat, 0%R)
                    (fun '(n, t) c => (S n, (t + c_income c)%R))) cs d) =
                 (fold_right (fun e s => (e.2.1 + s)%nat) 0%nat d + length cs)%nat)
    by (rewrite H; done).
  induction cs as [|c cs IH]; intros d; cbn; [lia|].
  rewrite IH. unfold group_step; cbv zeta.
  set (d1 := match alookup (c_region c) d with None => aset (c_region c) (0%nat, 0%R) d | Some _ => d end).
  assert (Hd1 : fold_right (fun e s => (e.2.1 + s)%nat) 0%nat d1 =
                fold_right (fun e s => (e.2.1 + s)%nat) 0%nat d /\ alookup (c_region c) d1 <> None).
  { subst d1. destruct (alookup (c_region c) d) eqn:L; [rewrite L; done|].
    rewrite alookup_aset_eq. split; [|done].
    pose proof (aset_sum (fun v : nat * R => v.1) (c_region c) (0%nat, 0%R) (0%nat, 0%R) d) as H.
    clear -L. induction d as [|[k v] d IH]; cbn in *; [lia|].
    destruct (String.eqb (c_region c) k); [done|]. cbn. rewrite IH; done. }
  destruct Hd1 as [Hs Hl]. destruct (alookup (c_region c) d1) as [[n t]|] eqn:L; [|done].
  pose proof (aset_sum (fun v : nat * R => v.1) (c_region c) (n, t) (S n, (t + c_income c)%R) d1 L) as H.
  cbn in H. lia.
Qed.

Lemma category_upd_fold fs s :
  fold_left (fun s c => (s + c_avg_order_value c * c_purchase_frequency c / 1000)%R) fs s =
  (s + fold_right Rplus 0%R (map (fun c => (c_avg_order_value c * c_purchase_frequency c / 1000)%R) fs))%R.
Proof.
  revert s. induction fs as [|c fs IH]; intros s; cbn; [ring|]. rewrite IH. ring.
Qed.

(** [category_sales] of [get_trend_analytics] holds, for each category, the
    sum of [avg_order_value * purchase_frequency / 1000] over its
    customers; a category no customer has (even one of the listed
    [categories]) gets no entry. *)
Theorem category_sales_lookup cs cat :
  alookup cat (category_sales cs) =
  match List.filter (fun c => String.eqb (c_product_category c) cat) cs with
  | [] => None
  | fs => Some (fold_right Rplus 0%R
                 (map (fun c => (c_avg_order_value c * c_purchase_frequency c / 1000)%R) fs))
  end.
Proof.
  unfold category_sales. rewrite group_fold_lookup. cbn.
  destruct (List.filter _ cs) as [|c fs]; [done|].
  rewrite category_upd_fold. f_equal. ring.
Qed.

Lemma category_sales_nil cs : category_sales cs = [] <-> cs = [].
Proof.
  split; [|by intros ->].
  destruct cs as [|c cs]; [done|]. intros H. exfalso. revert H.
  unfold category_sales. cbn. apply group_fold_not_nil.
  unfold group_step; cbv zeta. cbn. rewrite String.eqb_refl. done.
Qed.

Lemma age_groups_fold cs n1 n2 n3 n4 :
  fold_left age_step cs [("18-30", n1); ("31-40", n2); ("41-50", n3); ("50+", n4)] =
  [("18-30", (n1 + length (List.filter (fun c => (c_age c <=? 30)%Z) cs))%nat);
   ("31-40", (n2 + length (List.filter (fun c => ((30 <? c_age c) && (c_age c <=? 40))%Z) cs))%nat);
   ("41-50", (n3 + length (List.filter (fun c => ((40 <? c_age c) && (c_age c <=? 50))%Z) cs))%nat);
   ("50+", (n4 + length (List.filter (fun c => (50 <? c_age c)%Z) cs))%nat)].
Proof.
  revert n1 n2 n3 n4. induction cs as [|c cs IH]; intros n1 n2 n3 n4; cbn.
  - repeat rewrite Nat.add_0_r. done.
  - unfold age_step at 2.
    destruct (Z.leb_spec (c_age c) 30);
      [|destruct (Z.leb_spec (c_age c) 40); [|destruct (Z.leb_spec (c_age c) 50)]];
      cbn; rewrite IH;
      repeat match goal with
      | |- context [?a <? ?b] => destruct (Z.ltb_spec a b); try lia
      end; cbn; repeat f_equal; lia.
Qed.

(** The age distribution of [get_trend_analytics] has the four groups, in
    this order, whatever the customers: ages up to 30 (including any under
    18) count in "18-30", 31 to 40 in "31-40", 41 to 50 in "41-50" and the
    rest in "50+". *)
Theorem age_groups_counts cs :
  age_groups cs =
  [("18-30", length (List.filter (fun c => c_age c <=? 30) cs));
   ("31-40", length (List.filter (fun c => (30 <? c_age c) && (c_age c <=? 40)) cs));
   ("41-50", length (List.filter (fun c => (40 <? c_age c) && (c_age c <=? 50)) cs));
   ("50+", length (List.filter (fun c => 50 <? c_age c) cs))].
Proof. apply age_groups_fold. Qed.

(** Each customer lands in exactly one age group: the four counts add up
    to the number of customers. *)
Theorem age_groups_sum cs :
  fold_right (fun e s => (e.2 + s)%nat) 0%nat (age_groups cs) = length cs.
Proof.
  rewrite age_groups_counts. cbn. induction cs as [|c cs IH]; cbn; [done|].
  destruct (Z.leb_spec (c_age c) 30); [|destruct (Z.leb_spec (c_age c) 40); [|destruct (Z.leb_spec (c_age c) 50)]];
    repeat match goal with
    | |- context [?a <? ?b] => destruct (Z.ltb_spec a b); try lia
    end; cbn; lia.
Qed.

Lemma py_max_key_fold rest pre bk bv mid :
  Forall (fun e : string * R => (e.2 < bv)%R) pre -> Forall (fun e : string * R => (e.2 <= bv)%R) mid ->
  exists pre' post',
    pre ++ (bk, bv) :: mid ++ rest =
      pre' ++ fold_left (fun '(bk, bv) '(k', v') => if Rlt_dec bv v' then (k', v') else (bk, bv))
                 rest (bk, bv) :: post' /\
    Forall (fun e : string * R => (e.2 < (fold_left (fun '(bk, bv) '(k', v') =>
                               if Rlt_dec bv v' then (k', v') else (bk, bv)) rest (bk, bv)).2)%R) pre' /\
    Forall (fun e : string * R => (e.2 <= (fold_left (fun '(bk, bv) '(k', v') =>
                               if Rlt_dec bv v' then (k', v') else (bk, bv)) rest (bk, bv)).2)%R) post'.
Proof.
  revert pre bk bv mid. induction rest as [|[k' v'] rest IH]; intros pre bk bv mid Hpre Hmid; cbn.
  - exists pre, mid. rewrite app_nil_r. done.
  - destruct (Rlt_dec bv v') as [Hlt|Hge].
    + destruct (IH (pre ++ (bk, bv) :: mid) k' v' []) as (pre' & post' & Heq & H1 & H2).
      * apply Forall_app. split; [|constructor; [done|]].
        { eapply Forall_impl; [exact Hpre|]. intros e He. cbn in *. lra. }
        { eapply Forall_impl; [exact Hmid|]. intros e He. cbn in *. lra. }
      * constructor.
      * exists pre', post'. split; [|done]. rewrite <- Heq. rewrite <- app_assoc. done.
    + destruct (IH pre bk bv (mid ++ [(k', v')])) as (pre' & post' & Heq & H1 & H2); [done| |].
      * apply Forall_app. split; [done|]. constructor; [cbn; lra|constructor].
      * exists pre', post'. split; [|done]. rewrite <- Heq. rewrite <- app_assoc. done.
Qed.

(** [max(d, key=d.get)] raises on an empty dict; otherwise it returns a key
    of greatest value, the first one when several share it. *)
Theorem py_max_key_spec d :
  match py_max_key d with
  | None => d = []
  | Some k => exists pre v post, d = pre ++ (k, v) :: post /\
      Forall (fun e : string * R => (e.2 < v)%R) pre /\ Forall (fun e : string * R => (e.2 <= v)%R) post
  end.
Proof.
  destruct d as [|[k v] rest]; cbn; [done|].
  destruct (py_max_key_fold rest [] k v [] ltac:(constructor) ltac:(constructor)) as (pre' & post' & Heq & H1 & H2).
  destruct (fold_left _ rest (k, v)) as [bk bv] eqn:F. cbn in *.
  exists pre', bv, post'. done.
Qed.

(** ** Trend analytics *)

Lemma samp_all_bind {A B} (Q : A -> Prop) (P : B -> Prop) (c : Samp A) (f : A -> Samp B) :
  samp_all Q c -> (forall a, Q a -> samp_all P (f a)) -> samp_all P (samp_bind c f).
Proof.
  intros Hc Hf. induction Hc as [a Ha|l b k Hk IH]; cbn; [by apply Hf|].
  constructor. intros n. apply IH.
Qed.

Lemma apply_dp_all value epsilon :
  (0 < epsilon)%R -> samp_all (fun _ => True) (apply_differential_privacy value epsilon).
Proof.
  intros Heps. rewrite apply_dp_pos by done.
  constructor. intros n. destruct (Rlt_dec 0 value); by constructor.
Qed.

Lemma samp_all_impl {A} (P P' : A -> Prop) (c : Samp A) :
  samp_all P c -> (forall a, P a -> P' a) -> samp_all P' c.
Proof.
  intros Hc HP. induction Hc as [a Ha|l b k Hk IH]; constructor; [by apply HP|]. intros n. apply IH.
Qed.

Lemma privatize_nil items acc :
  samp_all (fun r => r = [] <-> items = [] /\ acc = []) (privatize items acc).
Proof.
  revert acc. induction items as [|[k v] items IH]; intros acc; cbn [privatize].
  - constructor. tauto.
  - eapply samp_all_bind; [apply apply_dp_all; unfold DIFFERENTIAL_PRIVACY_EPSILON; lra|]. intros pv _.
    eapply samp_all_impl; [apply IH|]. intros r Hr. cbn in Hr.
    pose proof (aset_not_nil k pv acc). split; [|by intros [? _]]. intros Hr'. tauto.
Qed.

(** Whatever the noise draws, [get_trend_analytics] appends its
    TREND_ANALYSIS entry to the audit log, and then raises ValueError (from
    [max] on an empty dict) exactly when there are no customers; the age
    distribution always has its four groups, so only the top category can
    fail. *)
Theorem get_trend_analytics_empty cs now log :
  samp_all (fun '(log', res) =>
     log' = log_audit_entry log now "demo_user" "TREND_ANALYSIS" "CUSTOMER_DATA" 0.15 /\
     (res = inl ValueError <-> cs = []))
    (get_trend_analytics cs now log).
Proof.
  unfold get_trend_analytics. eapply samp_all_bind; [apply privatize_nil|]. intros pc Hpc.
  eapply samp_all_bind; [apply privatize_nil|]. intros pa Hpa. constructor. split; [done|].
  rewrite age_groups_counts in Hpa. cbn in Hpa.
  destruct pa as [|[ka va] pa]; [destruct Hpa as [H _]; by destruct (H eq_refl)|].
  destruct pc as [|[kc vc] pc]; cbn.
  - split; [|done]. intros _. apply category_sales_nil. cbn in Hpc. by apply Hpc.
  - split; [done|]. intros ->. exfalso. cbn in Hpc. assert (H : (kc, vc) :: pc = []) by (apply Hpc; done). done.
Qed.

(** ** Audit log *)

Lemma list_slice_last {A} (xs : list A) k :
  (0 < k)%nat -> list_slice xs (Some (- Z.of_nat k)) None = drop (length xs - k) xs.
Proof.
  intros Hk. unfold list_slice, slice_range. rewrite slice_bound_neg by done.
  apply take_ge. rewrite length_drop. lia.
Qed.

(** [get_audit_log] refuses a non-admin with 403; an admin gets the last
    50 entries of the log (all of them when there are fewer), the total
    number of entries and [PRIVACY_BUDGET]. *)
Theorem get_audit_log_spec u log :
  match get_audit_log u log with
  | inl e => u_role u <> "admin" /\ e = HTTPException 403 "Admin access required"
  | inr (entries, total, budget) =>
      u_role u = "admin" /\ total = length log /\ budget = PRIVACY_BUDGET /\
      length entries = Nat.min 50 (length log) /\ exists older, log = older ++ entries
  end.
Proof.
  unfold get_audit_log. destruct (String.eqb_spec (u_role u) "admin"); [|done].
  change (-50) with (- Z.of_nat 50). rewrite list_slice_last by lia.
  split; [done|]. split; [done|]. split; [done|]. split.
  - rewrite length_drop. lia.
  - exists (take (length log - 50) log). by rewrite take_drop.
Qed.

(** An entry just logged with [log_audit_entry] is the last entry an admin
    sees in [get_audit_log], and the total has grown by one. *)
Theorem get_audit_log_after_log u log now usr action resource budget :
  u_role u = "admin" ->
  exists entries,
    get_audit_log u (log_audit_entry log now usr action resource budget) =
      inr (entries, S (length log), PRIVACY_BUDGET) /\
    last entries = Some (mk_audit_entry now usr action resource budget).
Proof.
  intros Hu. unfold get_audit_log. rewrite Hu, String.eqb_refl.
  eexists. split; [f_equal; f_equal; f_equal; unfold log_audit_entry; rewrite length_app; cbn; lia|].
  change (-50) with (- Z.of_nat 50). rewrite list_slice_last by lia.
  unfold log_audit_entry. rewrite length_app. cbn.
  rewrite drop_app_le by lia. apply last_snoc.
Qed.

Lemma get_audit_log_after_log_witness :
  u_role (mk_user "admin" "System Administrator" "admin") = "admin" /\
  exists entries,
    get_audit_log (mk_user "admin" "System Administrator" "admin")
      (log_audit_entry [] "2024-01-01T00:00:00" "demo_user" "TREND_ANALYSIS" "CUSTOMER_DATA" 0.15) =
      inr (entries, S (length (@nil audit_entry)), PRIVACY_BUDGET) /\
    last entries = Some (mk_audit_entry "2024-01-01T00:00:00" "demo_user" "TREND_ANALYSIS" "CUSTOMER_DATA" 0.15).
Proof.
  split; [reflexivity|].
  exact (get_audit_log_after_log (mk_user "admin" "System Administrator" "admin") []
           "2024-01-01T00:00:00" "demo_user" "TREND_ANALYSIS" "CUSTOMER_DATA" 0.15 eq_refl).
Defined.

(** ** Authentication *)

Lemma users_db_username hash name u hashed :
  alookup name (users_db hash) = Some (u, hashed) -> u_username u = name.
Proof.
  cbn. destruct (String.eqb_spec name "admin"); [intros [= <- _]; done|].
  destruct (String.eqb_spec name "analyst"); [intros [= <- _]; done|].
  destruct (String.eqb_spec name "viewer"); [intros [= <- _]; done|]. done.
Qed.

Lemma get_user_username hash name u : get_user hash name = Some u -> u_username u = name.
Proof.
  unfold get_user. destruct (alookup name (users_db hash)) as [[u' h]|] eqn:L; [|done].
  intros [= <-]. by apply (users_db_username hash name u' h).
Qed.

(** [authenticate_user] returns a user exactly when the username is a key
    of [users_db] whose stored hash the password verifies against; the
    user returned is the one stored under that name. *)
Theorem authenticate_user_spec verify hash username password u :
  authenticate_user verify hash username password = Some u <->
  u_username u = username /\
  exists hashed, alookup username (users_db hash) = Some (u, hashed) /\ verify password hashed = true.
Proof.
  unfold authenticate_user, get_user, verify_password.
  destruct (alookup username (users_db hash)) as [[u' h]|] eqn:L.
  - pose proof (users_db_username _ _ _ _ L) as Hn.
    destruct (verify password h) eqn:V; split.
    + intros [= <-]. split; [done|]. by exists h.
    + intros [_ [h' [[= <- <-] _]]]. done.
    + done.
    + intros [_ [h' [[= <- <-] V']]]. congruence.
  - split; [done|]. intros [_ [h' [[=] _]]].
Qed.

(** The [/token] endpoint: a failed authentication raises 401 and leaves
    the audit log as it was; a successful one returns a bearer token
    encoding [sub] = the username and an expiry 30 minutes after [utcnow],
    and appends a LOGIN entry for that user. *)
Theorem login_for_access_token_spec verify hash encode utcnow now username password log :
  match login_for_access_token verify hash encode utcnow now username password log with
  | (log', inl e) =>
      authenticate_user verify hash username password = None /\ log' = log /\
      e = HTTPException 401 "Incorrect username or password"
  | (log', inr (token, token_type)) =>
      (exists u, authenticate_user verify hash username password = Some u) /\
      token = encode [("sub", CStr username); ("exp", CTime (utcnow + 30))] /\
      token_type = "bearer" /\
      log' = log ++ [mk_audit_entry now username "LOGIN" "SYSTEM" 0]
  end.
Proof.
  unfold login_for_access_token.
  destruct (authenticate_user verify hash username password) as [u|] eqn:A; [|done].
  apply authenticate_user_spec in A as A'. destruct A' as [Hn _]. rewrite Hn.
  split; [by exists u|]. split; [|done]. reflexivity.
Qed.

(** [get_current_user] fails only with the 401 credentials exception; when
    it succeeds, the token decoded, its [sub] claim is present and names a
    user of [users_db], and that user is returned. *)
Theorem get_current_user_spec decode hash token :
  match get_current_user decode hash token with
  | inl e => e = credentials_exception
  | inr u => exists payload, decode token = Some payload /\
      alookup "sub" payload = Some (u_username u) /\ get_user hash (u_username u) = Some u
  end.
Proof.
  unfold get_current_user.
  destruct (decode token) as [p|]; [|done].
  destruct (alookup "sub" p) as [name|] eqn:S; [|done].
  destruct (get_user hash name) as [u|] eqn:G; [|done].
  pose proof (get_user_username _ _ _ G) as Hn. subst name. eauto.
Qed.



